(** * WireViz: the connection-set parser of [wireviz.parse]

    A shallow embedding of the part of [src/wireviz/wireviz.py] that turns
    the [connections] section of a harness document into calls of
    [harness.connect]: role inference on the first component, the
    alternation and length check, the population of [connection_list]
    (with the auto-generation of connector instances) and the final
    connection loop.

    Python exceptions are values of [error]; a statement that raises
    leaves every mutation made before it in place, so stateful phases
    return the state together with the outcome. *)

From Stdlib Require Import Ascii String DecimalString DecimalNat.
From stdpp Require Import gmap strings list fin_maps.


(** ** Data as the deserialised YAML document has it *)

(** A YAML scalar used as a pin label: an integer or a string. *)
Inductive YamlScalar :=
| YInt (n : Z)
| YStr (s : string).

(** The value of a one-key dict in a connection set: a scalar or a list of
    scalars, handed to [expand]. *)
Inductive YamlValue :=
| YScalar (v : YamlScalar)
| YList (l : list YamlScalar).

Global Instance YamlScalar_eq_dec : EqDecision YamlScalar.
Proof. solve_decision. Defined.

Global Instance YamlValue_eq_dec : EqDecision YamlValue.
Proof. solve_decision. Defined.

(** The attributes of a connector or cable.  [parse] reads only
    [autogenerate] (through [attribs.get('autogenerate')]); everything else
    is passed on to the harness untouched. *)
Record Attribs := {
  autogenerate : bool;
  static : list (string * YamlValue)
}.

(** One entry of a connection set, as the document shape has it: a [str],
    a [list] of designators, or a [dict] from designator to pin
    specification (keys in document order).  These are the three cases
    that the [isinstance] tests of [parse] tell apart; the document shape
    has no other, so the final [else] of line 161 has no counterpart. *)
Inductive Item :=
| IStr (s : string)
| IList (l : list string)
| IDict (d : list (string * YamlValue)).

(** [yaml_data] after the section loop of lines 47-70: the three sections
    exist and have the expected container type. *)
Record YamlData := {
  connectors : gmap string Attribs;
  cables : gmap string Attribs;
  connections : list (list Item)
}.

(** [alternating_sections = ['connectors','cables']]; [expected_index] 0 is
    [Connectors], 1 is [Cables], and [1 - expected_index] is [flip]. *)
Inductive SectionName := Connectors | Cables.

Definition flip (s : SectionName) : SectionName :=
  match s with Connectors => Cables | Cables => Connectors end.

Definition section (y : YamlData) (s : SectionName) : gmap string Attribs :=
  match s with Connectors => connectors y | Cables => cables y end.

(** [x in yaml_data[section]] *)
Definition is_in (y : YamlData) (s : SectionName) (x : string) : bool :=
  bool_decide (is_Some (section y s !! x)).

(** ** Exceptions *)

Inductive error :=
| IndexError                              (* subscript of an empty list *)
| KeyError (k : string)                   (* yaml_data['connectors'][k] *)
| FirstItemNotFound                       (* 'First item not found anywhere.' *)
| RoleAlternationViolation (x : string) (s : SectionName)
                                          (* '{x} is not in {expected_section}' *)
| MultiKeyMapping                         (* 'Dicts may contain only one key here!' *)
| CardinalityMismatch                     (* 'All lists and dict lists must be the same length!' *)
| NoCardinalityRevealed                   (* 'No item revealed the number of connections to make!' *)
| MalformedPinSpec                        (* raised inside expand *)
| DuplicateId (x : string).               (* raised by the registry *)

Inductive result (A : Type) :=
| Ok (a : A)
| Raise (e : error).
Arguments Ok {A} a.
Arguments Raise {A} e.

Global Instance result_ret : MRet result := λ A a, Ok a.
Global Instance result_bind : MBind result := λ A B k r,
  match r with Ok a => k a | Raise e => Raise e end.

Definition is_Ok {A} (r : result A) : Prop :=
  match r with Ok _ => True | Raise _ => False end.

(** ** The harness *)

(** What [harness.connect] receives: [from_name, from_pin] (both [None] at
    a cable that starts the set), [via_name, via_pin], [to_name, to_pin]. *)
Record WireLink := {
  from_ : option (string * YamlScalar);
  via : string * YamlScalar;
  to_ : option (string * YamlScalar)
}.

(** Modelled from the spec: the class [wireviz.Harness] is not part of the
    sources at hand.  Following the Component Registry of the
    specification, the harness keeps the registered connectors and cables
    (in registration order) and the emitted wire links (in emission
    order); [register] "fails with DuplicateId if id already present", and
    ids are unique within their role. *)
Record Harness := {
  h_connectors : list (string * Attribs);
  h_cables : list (string * Attribs);
  h_links : list WireLink
}.

Definition registered (name : string) (reg : list (string * Attribs)) : bool :=
  bool_decide (name ∈ reg.*1).

Definition add_connector (name : string) (a : Attribs) (h : Harness) : result Harness :=
  if registered name (h_connectors h) then Raise (DuplicateId name)
  else Ok {| h_connectors := h_connectors h ++ [(name, a)];
             h_cables := h_cables h;
             h_links := h_links h |}.

Definition add_cable (name : string) (a : Attribs) (h : Harness) : result Harness :=
  if registered name (h_cables h) then Raise (DuplicateId name)
  else Ok {| h_connectors := h_connectors h;
             h_cables := h_cables h ++ [(name, a)];
             h_links := h_links h |}.

Definition connect (f : option (string * YamlScalar)) (v : string * YamlScalar)
    (t : option (string * YamlScalar)) (h : Harness) : Harness :=
  {| h_connectors := h_connectors h;
     h_cables := h_cables h;
     h_links := h_links h ++ [{| from_ := f; via := v; to_ := t |}] |}.

Definition empty_harness : Harness :=
  {| h_connectors := []; h_cables := []; h_links := [] |}.

(** The mutable state that [parse] threads through the connection sets:
    the dictionary [autogenerated_ids] and the harness. *)
Record State := {
  autogenerated_ids : gmap string nat;
  harness : Harness
}.

(** ** Role inference (lines 82-99) *)

(** [first_item = connection[0]], unwrapped once if it is a list or dict. *)
Definition first_item (connection : list Item) : result string :=
  match connection with
  | [] => Raise IndexError
  | IList [] :: _ => Raise IndexError
  | IList (x :: _) :: _ => Ok x
  | IDict [] :: _ => Raise IndexError
  | IDict ((k, _) :: _) :: _ => Ok k
  | IStr s :: _ => Ok s
  end.

(** The [for index, section in enumerate(alternating_sections)] loop with
    its [else] clause: connectors are tried first. *)
Definition first_section (y : YamlData) (x : string) : result SectionName :=
  if is_in y Connectors x then Ok Connectors
  else if is_in y Cables x then Ok Cables
  else Raise FirstItemNotFound.

(** The computations of [parse] that mutate [autogenerated_ids] or the
    harness.  An exception keeps the state reached when it was raised. *)
Definition M (A : Type) : Type := State → State * result A.

Global Instance M_ret : MRet M := λ A a st, (st, Ok a).
Global Instance M_bind : MBind M := λ A B k m st,
  match m st with
  | (st', Ok a) => k a st'
  | (st', Raise e) => (st', Raise e)
  end.

(** One slot of [connection_list]: a list of [[name, pin]] pairs. *)
Abbreviation Slot := (list (string * YamlScalar)).

(** [f'{n}'] for a non-negative Python [int]. *)
Definition str (n : nat) : string := NilEmpty.string_of_uint (Nat.to_uint n).

(** [new_id = f'_{item}_{autogenerated_ids[item]}'] *)
Definition new_id (item : string) (n : nat) : string :=
  "_" +:+ item +:+ "_" +:+ str n.

Section Parse.

(** [wv_helper.expand] is imported, its body is not part of the sources at
    hand: it is a parameter of the development.  [Raise] stands for an
    exception raised inside it. *)
Variable expand : YamlValue → result (list YamlScalar).

(** ** The alternation and length check (lines 101-127) *)

(** [if not x in yaml_data[expected_section]: raise ...] *)
Definition check_in (y : YamlData) (s : SectionName) (x : string) : result unit :=
  if is_in y s x then Ok () else Raise (RoleAlternationViolation x s).

(** [for subitem in item: ...] of the list branch *)
Fixpoint check_subitems (y : YamlData) (s : SectionName) (item : list string) : result unit :=
  match item with
  | [] => Ok ()
  | subitem :: item' => _ ← check_in y s subitem; check_subitems y s item'
  end.

(** [if itemcount is not None and itemcount_new != itemcount: raise ...] *)
Definition check_count (itemcount : option nat) (itemcount_new : nat) : result unit :=
  match itemcount with
  | Some n => if decide (itemcount_new ≠ n) then Raise CardinalityMismatch else Ok ()
  | None => Ok ()
  end.

(** The loop [for item in connection].  [expected_index] is the value held
    on entry of an iteration, flipped first thing in the body. *)
Fixpoint check_items (y : YamlData) (expected_index : SectionName)
    (itemcount : option nat) (connection : list Item) : result (option nat) :=
  match connection with
  | [] => Ok itemcount
  | item :: rest =>
      let expected_section := flip expected_index in
      match item with
      | IList l =>
          _ ← check_subitems y expected_section l;
          _ ← check_count itemcount (length l);
          check_items y expected_section (Some (length l)) rest
      | IDict [(subitem, spec)] =>
          pins ← expand spec;
          _ ← check_in y expected_section subitem;
          _ ← check_count itemcount (length pins);
          check_items y expected_section (Some (length pins)) rest
      | IDict _ => Raise MultiKeyMapping
      | IStr s =>
          _ ← check_in y expected_section s;
          check_items y expected_section itemcount rest
      end
  end.

(** [if itemcount is None: raise ...] *)
Definition revealed (itemcount : option nat) : result nat :=
  match itemcount with
  | None => Raise NoCardinalityRevealed
  | Some n => Ok n
  end.

(** Lines 82-127 for one connection set: the value is [itemcount]. *)
Definition check_connection (y : YamlData) (connection : list Item) : result nat :=
  x ← first_item connection;
  index ← first_section y x;
  itemcount ← check_items y (flip index) None connection;
  revealed itemcount.

(** ** Populating [connection_list] (lines 129-162) *)

(** The body shared by the [str] loop (lines 135-141) and the [list] loop
    (lines 146-152): one [[name, 1]] entry, a fresh instance when the
    connector is flagged [autogenerate]. *)
Definition single_pin (y : YamlData) (item : string) : M (string * YamlScalar) := λ st,
  match connectors y !! item with
  | None => (st, Raise (KeyError item))
  | Some attribs =>
      if autogenerate attribs then
        let n := default 0 (autogenerated_ids st !! item) + 1 in
        let ids := <[item := n]> (autogenerated_ids st) in
        match add_connector (new_id item n) attribs (harness st) with
        | Raise e => ({| autogenerated_ids := ids; harness := harness st |}, Raise e)
        | Ok h => ({| autogenerated_ids := ids; harness := h |}, Ok (new_id item n, YInt 1))
        end
      else (st, Ok (item, YInt 1))
  end.

(** [for subitem in item: ... sublist.append(...)] *)
Fixpoint single_pins (y : YamlData) (item : list string) : M Slot :=
  match item with
  | [] => mret []
  | subitem :: item' =>
      p ← single_pin y subitem;
      sublist ← single_pins y item';
      mret (p :: sublist)
  end.

(** The slot of one item.  The [str] branch runs the body [itemcount]
    times for the same designator. *)
Definition populate_item (y : YamlData) (itemcount : nat) (item : Item) : M Slot :=
  match item with
  | IStr s => single_pins y (replicate itemcount s)
  | IList l => single_pins y l
  | IDict [] => λ st, (st, Raise IndexError)
  | IDict ((id, spec) :: _) => λ st,
      match expand spec with
      | Raise e => (st, Raise e)
      | Ok pins => (st, Ok ((λ pin, (id, pin)) <$> pins))
      end
  end.

(** [for i, item in enumerate(connection): ... connection_list.append(sublist)] *)
Fixpoint populate (y : YamlData) (itemcount : nat) (connection : list Item) : M (list Slot) :=
  match connection with
  | [] => mret []
  | item :: rest =>
      sublist ← populate_item y itemcount item;
      connection_list ← populate y itemcount rest;
      mret (sublist :: connection_list)
  end.

(** ** Connecting the components (lines 164-183) *)

(** [connection_list[i][j]] *)
Definition at_ (connection_list : list Slot) (i j : nat) : result (string * YamlScalar) :=
  match connection_list !! i with
  | None => Raise IndexError
  | Some item =>
      match item !! j with
      | None => Raise IndexError
      | Some p => Ok p
      end
  end.

Definition from_end (connection_list : list Slot) (i j : nat)
    : result (option (string * YamlScalar)) :=
  if decide (i = 0) then Ok None
  else p ← at_ connection_list (i - 1) j; Ok (Some p).

Definition to_end (connection_list : list Slot) (i j : nat)
    : result (option (string * YamlScalar)) :=
  if decide (i = length connection_list - 1) then Ok None
  else p ← at_ connection_list (i + 1) j; Ok (Some p).

(** [for j, con in enumerate(item)]: [rest] is what is left of [item] from
    index [j] on, so that [con] is [item[j]]. *)
Fixpoint connect_pins (connection_list : list Slot) (i j : nat) (rest : Slot)
    (h : Harness) : Harness * result () :=
  match rest with
  | [] => (h, Ok ())
  | con :: rest' =>
      match from_end connection_list i j with
      | Raise e => (h, Raise e)
      | Ok f =>
          match to_end connection_list i j with
          | Raise e => (h, Raise e)
          | Ok t => connect_pins connection_list i (S j) rest' (connect f con t h)
          end
      end
  end.

(** [for i, item in enumerate(connection_list)]: [rest] is what is left of
    [connection_list] from index [i] on. *)
Fixpoint connect_slots (connection_list : list Slot) (i : nat) (rest : list Slot)
    (h : Harness) : Harness * result () :=
  match rest with
  | [] => (h, Ok ())
  | item :: rest' =>
      match item with
      | [] => (h, Raise IndexError)
      | (id, _) :: _ =>
          if registered id (h_cables h) then
            match connect_pins connection_list i 0 item h with
            | (h', Ok _) => connect_slots connection_list (S i) rest' h'
            | (h', Raise e) => (h', Raise e)
            end
          else connect_slots connection_list (S i) rest' h
      end
  end.

Definition connect_all (connection_list : list Slot) : M () := λ st,
  let '(h, r) := connect_slots connection_list 0 connection_list (harness st) in
  ({| autogenerated_ids := autogenerated_ids st; harness := h |}, r).

(** ** One connection set, and all of them *)

(** The body of [for connection in yaml_data['connections']]; the value is
    [itemcount] and [connection_list]. *)
Definition parse_connection (y : YamlData) (connection : list Item) : M (nat * list Slot) := λ st,
  match check_connection y connection with
  | Raise e => (st, Raise e)
  | Ok itemcount =>
      (connection_list ← populate y itemcount connection;
       _ ← connect_all connection_list;
       mret (itemcount, connection_list)) st
  end.

Fixpoint parse_connections (y : YamlData) (conns : list (list Item)) : M () :=
  match conns with
  | [] => mret ()
  | connection :: conns' =>
      _ ← parse_connection y connection;
      parse_connections y conns'
  end.

End Parse.

(** ** Registering the declared components (lines 47-70) *)

(** [for key, attribs in yaml_data[sec].items()], with the harness method
    [add] applied to the entries that [keep] selects. *)
Fixpoint add_items (add : string → Attribs → Harness → result Harness)
    (keep : Attribs → bool) (items : list (string * Attribs)) (h : Harness)
    : result Harness :=
  match items with
  | [] => Ok h
  | (key, attribs) :: items' =>
      h' ← (if keep attribs then add key attribs h else Ok h);
      add_items add keep items' h'
  end.

(** Connectors flagged [autogenerate] are templates and are skipped;
    every cable is added. *)
Definition add_declared (y : YamlData) : result Harness :=
  h ← add_items add_connector (λ a, negb (autogenerate a))
        (map_to_list (connectors y)) empty_harness;
  add_items add_cable (λ _, true) (map_to_list (cables y)) h.

(** [parse], from the section loop to the end of the connection loop. *)
Definition parse (expand : YamlValue → result (list YamlScalar)) (y : YamlData)
    : result (State * result ()) :=
  h ← add_declared y;
  Ok (parse_connections expand y (connections y)
        {| autogenerated_ids := ∅; harness := h |}).

(** ** A pin-range expander *)

Definition digit (c : ascii) : option nat :=
  let n := nat_of_ascii c in
  if decide (48 ≤ n ≤ 57)%nat then Some (n - 48) else None.

Fixpoint number_go (acc : nat) (s : string) : option nat :=
  match s with
  | EmptyString => Some acc
  | String c s' => d ← digit c; number_go (10 * acc + d) s'
  end.

Definition number (s : string) : option nat :=
  match s with
  | EmptyString => None
  | _ => number_go 0 s
  end.

Fixpoint split_dash (s : string) : option (string * string) :=
  match s with
  | EmptyString => None
  | String c s' =>
      if decide (c = "-"%char) then Some (EmptyString, s')
      else '(a, b) ← split_dash s'; Some (String c a, b)
  end.

Definition range (a b : nat) : list nat :=
  if decide (a ≤ b)%nat then seq a (b - a + 1) else reverse (seq b (a - b + 1)).

Definition expand_scalar (v : YamlScalar) : result (list YamlScalar) :=
  match v with
  | YInt n => Ok [YInt n]
  | YStr s =>
      match split_dash s with
      | Some (a, b) =>
          match number a, number b with
          | Some a, Some b => Ok ((λ n, YInt (Z.of_nat n)) <$> range a b)
          | _, _ => Raise MalformedPinSpec
          end
      | None =>
          match number s with
          | Some n => Ok [YInt (Z.of_nat n)]
          | None => Ok [YStr s]
          end
      end
  end.

Fixpoint expand_scalars (l : list YamlScalar) : result (list YamlScalar) :=
  match l with
  | [] => Ok []
  | v :: l' => ps ← expand_scalar v; qs ← expand_scalars l'; Ok (ps ++ qs)
  end.

(** Modelled from the spec: [wv_helper.expand] is not part of the sources
    at hand.  The Pin-Range Expander turns "a single pin label, or a
    compact textual/numeric range expression, or a list thereof" into "an
    ordered, possibly-repeating sequence of pin labels", in authoring
    order, and "fails with a MalformedPinSpec condition when the
    expression cannot be interpreted as pins".  The grammar being left
    open, this instance reads [a-b] as the inclusive range between two
    decimal numbers, in either direction; it serves to run the parser on
    concrete documents. *)
Definition expand_ranges (v : YamlValue) : result (list YamlScalar) :=
  match v with
  | YScalar v => expand_scalar v
  | YList l => expand_scalars l
  end.

(** ** Sample documents *)

Definition plain (k : string) (n : Z) : Attribs :=
  {| autogenerate := false; static := [(k, YScalar (YInt n))] |}.

Definition template (k : string) (n : Z) : Attribs :=
  {| autogenerate := true; static := [(k, YScalar (YInt n))] |}.

Definition pins12 : YamlValue := YScalar (YStr "1-2").

(** Connectors [X] and [Y] with one pin each, cable [W] with two wires. *)
Definition doc_XYW (conns : list (list Item)) : YamlData :=
  {| connectors := {[ "X" := plain "pins" 1; "Y" := plain "pins" 1 ]};
     cables := {[ "W" := plain "wirecount" 2 ]};
     connections := conns |}.

Definition row_XWY : list Item :=
  [IList ["X"; "X"]; IStr "W"; IDict [("Y", pins12)]].

Definition row_XWY_wires : list Item :=
  [IList ["X"; "X"]; IDict [("W", pins12)]; IDict [("Y", pins12)]].

(** Connector [B] is declared both as a connector and as a cable. *)
Definition doc_both : YamlData :=
  {| connectors := {[ "A" := plain "pins" 1; "B" := plain "pins" 1 ]};
     cables := {[ "B" := plain "wirecount" 1; "W" := plain "wirecount" 2 ]};
     connections := [] |}.

(** The state in which the connection loop of [doc_XYW] starts. *)
Definition st_XYW : State :=
  {| autogenerated_ids := ∅;
     harness :=
       {| h_connectors := [("Y", plain "pins" 1); ("X", plain "pins" 1)];
          h_cables := [("W", plain "wirecount" 2)];
          h_links := [] |} |}.

(** The two links expected from [row_XWY_wires], and its slots. *)
Definition link_XWY_1 : WireLink :=
  {| from_ := Some ("X", YInt 1); via := ("W", YInt 1); to_ := Some ("Y", YInt 1) |}.

Definition link_XWY_2 : WireLink :=
  {| from_ := Some ("X", YInt 1); via := ("W", YInt 2); to_ := Some ("Y", YInt 2) |}.

Definition slots_XWY : list Slot :=
  [[("X", YInt 1); ("X", YInt 1)];
   [("W", YInt 1); ("W", YInt 2)];
   [("Y", YInt 1); ("Y", YInt 2)]].

(** A set that starts and ends on the cable. *)
Definition row_WXW : list Item :=
  [IDict [("W", pins12)]; IStr "X"; IDict [("W", pins12)]].

Definition slots_WXW : list Slot :=
  [[("W", YInt 1); ("W", YInt 2)];
   [("X", YInt 1); ("X", YInt 1)];
   [("W", YInt 1); ("W", YInt 2)]].

(** A ferrule template [F] used in two connection sets. *)
Definition doc_F : YamlData :=
  {| connectors := {[ "F" := template "pins" 1; "X" := plain "pins" 1 ]};
     cables := {[ "W" := plain "wirecount" 2 ]};
     connections :=
       [ [IStr "F"; IDict [("W", pins12)]; IStr "X"];
         [IList ["F"; "F"]; IDict [("W", pins12)]] ] |}.

(** ** Notions used to state the properties *)

(** The role that [parse] infers for the first position of a set. *)
Definition start_role (y : YamlData) (connection : list Item) : result SectionName :=
  x ← first_item connection;
  first_section y x.

(** The section expected at position [i] of a set that starts in [s]. *)
Definition section_at (s : SectionName) (i : nat) : SectionName :=
  Nat.iter i flip s.

(** Designators that sit in alternating sections, starting in [s]. *)
Fixpoint alternates (y : YamlData) (s : SectionName) (names : list string) : Prop :=
  match names with
  | [] => True
  | x :: names' => is_Some (section y s !! x) ∧ alternates y (flip s) names'
  end.

Section Notions.

Variable expand : YamlValue → result (list YamlScalar).

(** The count that an item contributes: the length of a list, the number
    of expanded pins of a one-key dict, nothing for a string. *)
Definition contribution (item : Item) : option nat :=
  match item with
  | IStr _ => None
  | IList l => Some (length l)
  | IDict [(_, spec)] =>
      match expand spec with
      | Ok pins => Some (length pins)
      | Raise _ => None
      end
  | IDict _ => None
  end.

(** The contribution of the first item that has one. *)
Fixpoint first_contribution (connection : list Item) : option nat :=
  match connection with
  | [] => None
  | item :: rest =>
      match contribution item with
      | Some n => Some n
      | None => first_contribution rest
      end
  end.

(** A list or dict item whose designators are all in section [s], and
    whose dict has one key with a pin specification that expands. *)
Definition revealing_item_ok (y : YamlData) (s : SectionName) (item : Item) : Prop :=
  match item with
  | IStr _ => False
  | IList l => Forall (λ x, is_Some (section y s !! x)) l
  | IDict [(k, spec)] => is_Some (section y s !! k) ∧ is_Ok (expand spec)
  | IDict _ => False
  end.

End Notions.

(** An item that yields a slot of [n] entries: any string, a list of
    length [n], a one-key dict whose pin specification expands to [n]
    pins. *)
Definition fits (expand : YamlValue → result (list YamlScalar)) (n : nat)
    (item : Item) : Prop :=
  match item with
  | IStr _ => True
  | IList l => length l = n
  | IDict [(_, spec)] => ∃ pins, expand spec = Ok pins ∧ length pins = n
  | IDict _ => False
  end.

(** *** Auto-generation *)

(** [yaml_data['connectors'][x].get('autogenerate')] for a declared
    connector. *)
Definition is_template (y : YamlData) (x : string) : bool :=
  match connectors y !! x with
  | Some attribs => autogenerate attribs
  | None => false
  end.

(** The template uses of one item: a string stands for [itemcount] uses of
    its designator, a list for one use per element, a dict for none. *)
Definition occurrences (y : YamlData) (itemcount : nat) (item : Item) : list string :=
  match item with
  | IStr s => List.filter (is_template y) (replicate itemcount s)
  | IList l => List.filter (is_template y) l
  | IDict _ => []
  end.

Definition set_occurrences (y : YamlData) (itemcount : nat) (connection : list Item)
    : list string :=
  concat (occurrences y itemcount <$> connection).

(** The template uses of a whole document, in processing order. *)
Definition document_occurrences (expand : YamlValue → result (list YamlScalar))
    (y : YamlData) (conns : list (list Item)) : list string :=
  concat ((λ connection,
             match check_connection expand y connection with
             | Ok itemcount => set_occurrences y itemcount connection
             | Raise _ => []
             end) <$> conns).

(** Numbering template uses one by one, starting from the counts [ids]. *)
Fixpoint number_from (ids : gmap string nat) (ts : list string) : list (string * nat) :=
  match ts with
  | [] => []
  | t :: ts' =>
      let n := default 0 (ids !! t) + 1 in
      (t, n) :: number_from (<[t := n]> ids) ts'
  end.

(** The counts after those uses. *)
Fixpoint bump (ids : gmap string nat) (ts : list string) : gmap string nat :=
  match ts with
  | [] => ids
  | t :: ts' => bump (<[t := default 0 (ids !! t) + 1]> ids) ts'
  end.

(** The registry entries of numbered instances: the generated name with
    the attributes of the template. *)
Definition instances (y : YamlData) (numbered : list (string * nat))
    : list (string * Attribs) :=
  omap (λ tn, a ← connectors y !! tn.1; Some (new_id tn.1 tn.2, a)) numbered.

(** How many times [t] occurs in [ts]. *)
Definition uses (t : string) (ts : list string) : nat :=
  length (List.filter (λ x, bool_decide (x = t)) ts).

(** Does the character [c] occur in [s]? *)
Fixpoint occurs (c : ascii) (s : string) : bool :=
  match s with
  | EmptyString => false
  | String c' s' => bool_decide (c' = c) || occurs c s'
  end.

(** The name under which a numbered instance is registered. *)
Definition instance_name (tn : string * nat) : string := new_id tn.1 tn.2.

(** *** Slots and links *)

(** Every slot has [n] entries. *)
Definition rectangular (n : nat) (connection_list : list Slot) : Prop :=
  Forall (λ item : Slot, length item = n) connection_list.

(** [item[0][0] in harness.cables] *)
Definition cable_slot (cbls : list (string * Attribs)) (item : Slot) : bool :=
  match item with
  | (id, _) :: _ => registered id cbls
  | [] => false
  end.

Definition end_at (connection_list : list Slot) (i j : nat) : option (string * YamlScalar) :=
  item ← connection_list !! i; item !! j.

(** The link of position [j] of slot [i], whose entry there is [con]. *)
Definition link (connection_list : list Slot) (i j : nat) (con : string * YamlScalar)
    : WireLink :=
  {| from_ := if decide (i = 0) then None else end_at connection_list (i - 1) j;
     via := con;
     to_ := if decide (i = length connection_list - 1) then None
            else end_at connection_list (i + 1) j |}.

Definition slot_links (cbls : list (string * Attribs)) (connection_list : list Slot)
    (i : nat) (item : Slot) : list WireLink :=
  if cable_slot cbls item then imap (link connection_list i) item else [].

Definition set_links (cbls : list (string * Attribs)) (connection_list : list Slot)
    : list WireLink :=
  concat (imap (slot_links cbls connection_list) connection_list).

Definition with_links (h : Harness) (ls : list WireLink) : Harness :=
  {| h_connectors := h_connectors h;
     h_cables := h_cables h;
     h_links := h_links h ++ ls |}.

Definition with_harness (st : State) (h : Harness) : State :=
  {| autogenerated_ids := autogenerated_ids st; harness := h |}.

(** *** Effects on the state *)

(** The effect of a phase on the state: the counts move as [bump] says,
    the connectors grow by the numbered instances, nothing else moves. *)
Definition grows_by (y : YamlData) (ts : list string) (st st' : State) : Prop :=
  autogenerated_ids st' = bump (autogenerated_ids st) ts ∧
  h_connectors (harness st') =
    h_connectors (harness st) ++ instances y (number_from (autogenerated_ids st) ts) ∧
  h_cables (harness st') = h_cables (harness st) ∧
  h_links (harness st') = h_links (harness st).

(** Whatever the outcome, cables and links are out of reach of this
    phase. *)
Definition frame (st st' : State) : Prop :=
  h_cables (harness st') = h_cables (harness st) ∧
  h_links (harness st') = h_links (harness st).

(** Closes a goal about a concrete document by evaluation. *)
Ltac by_evaluation :=
  vm_compute;
  first [ reflexivity
        | eexists; reflexivity
        | repeat (first [split | econstructor]); reflexivity ].

(** ** The section loop of [parse] on the raw document (lines 46-70) *)













(** ** The helper [check_designators] (lines 74-78) *)

(** [what] holds designators and [where] the section to look each one up
    in, here one of the two alternating sections.  The loop returns
    [False] at the first designator that is missing from its section, and
    subscripts [where] only when it gets that far. *)
Fixpoint check_designators (y : YamlData) (what : list string)
    (where_ : list SectionName) : result bool :=
  match what with
  | [] => Ok true
  | x :: what' =>
      match where_ with
      | [] => Raise IndexError
      | s :: where' =>
          if negb (is_in y s x) then Ok false
          else check_designators y what' where'
      end
  end.

(** ** The value that [parse] returns (lines 192-207) *)

(** The argument [return_types]: [None], one string, or a sequence of
    strings. *)
Inductive ReturnTypes :=
| RtNone
| RtStr (s : string)
| RtSeq (l : list string).

(** What is appended to [returns]: [harness.png], [harness.svg], or the
    harness itself. *)
Inductive Output := Png | Svg | TheHarness.

(** The value of [parse]: [None], one output, or a tuple of outputs. *)
Inductive Returned :=
| ReturnedNone
| ReturnedOne (o : Output)
| ReturnedTuple (l : list Output).

Section Returns.

(** [str.lower] *)
Variable lower : string → string.

(** The three independent [if] tests of the loop body. *)
Definition outputs_of (rt : string) : list Output :=
  (if decide (rt = "png") then [Png] else []) ++
  (if decide (rt = "svg") then [Svg] else []) ++
  (if decide (rt = "harness") then [TheHarness] else []).

(** [for rt in return_types: ...] *)
Fixpoint collect (return_types : list string) : list Output :=
  match return_types with
  | [] => []
  | rt :: return_types' => outputs_of rt ++ collect return_types'
  end.

(** [tuple(returns) if len(returns) != 1 else returns[0]] *)
Definition pack (returns : list Output) : Returned :=
  match returns with
  | [o] => ReturnedOne o
  | _ => ReturnedTuple returns
  end.

Definition returned (return_types : ReturnTypes) : Returned :=
  match return_types with
  | RtNone => ReturnedNone
  | RtStr s => pack (collect (lower <$> [s]))
  | RtSeq l => pack (collect (lower <$> l))
  end.

(** Is this one of the names that the loop knows, once lowered? *)
Definition known (rt : string) : bool :=
  bool_decide (lower rt = "png" ∨ lower rt = "svg" ∨ lower rt = "harness").

End Returns.

(** The names that [return_types] asks for. *)
Definition requested (return_types : ReturnTypes) : list string :=
  match return_types with
  | RtNone => []
  | RtStr s => [s]
  | RtSeq l => l
  end.

(** Every designator of [what] that has a section in [where_] is in it. *)
Definition designators_found (y : YamlData) (what : list string)
    (where_ : list SectionName) : Prop :=
  ∀ i x s, what !! i = Some x → where_ !! i = Some s → is_Some (section y s !! x).

(** ** More notions *)

(** The designators that [populate] reads as single-pin components: those
    of the strings and of the list elements. *)
Definition single_pin_names (connection : list Item) : list string :=
  concat ((λ item, match item with
                   | IStr s => [s]
                   | IList l => l
                   | IDict _ => []
                   end) <$> connection).

(** An item that the check lets through at a position where section [s]
    is expected, in a set of count [n]. *)
Definition item_accepted (expand : YamlValue → result (list YamlScalar))
    (y : YamlData) (s : SectionName) (n : nat) (item : Item) : Prop :=
  match item with
  | IStr x => is_Some (section y s !! x)
  | IList l => Forall (λ x, is_Some (section y s !! x)) l ∧ length l = n
  | IDict [(k, spec)] =>
      is_Some (section y s !! k) ∧ ∃ pins, expand spec = Ok pins ∧ length pins = n
  | IDict _ => False
  end.

(** Every item is accepted, the expected section alternating from [s]. *)
Fixpoint accepted (expand : YamlValue → result (list YamlScalar))
    (y : YamlData) (s : SectionName) (n : nat) (connection : list Item) : Prop :=
  match connection with
  | [] => True
  | item :: rest =>
      item_accepted expand y s n item ∧ accepted expand y (flip s) n rest
  end.

(** The keys of the dict items. *)
Definition dict_keys (connection : list Item) : list string :=
  concat ((λ item, match item with
                   | IDict d => d.*1
                   | _ => []
                   end) <$> connection).

(** The harness has the component of this slot entry, as a connector or
    as a cable. *)
Definition known_end (h : Harness) (p : string * YamlScalar) : Prop :=
  registered p.1 (h_connectors h) = true ∨ registered p.1 (h_cables h) = true.

(** The harness has every declared connector that is no template, and
    every declared cable. *)
Definition knows_declared (y : YamlData) (h : Harness) : Prop :=
  (∀ x a, connectors y !! x = Some a → autogenerate a = false →
          registered x (h_connectors h) = true) ∧
  (∀ x, is_Some (cables y !! x) → registered x (h_cables h) = true).

(** An item without a defect of its own at a position where section [s]
    is expected: a string in that section, or a list or dict item that
    passes [revealing_item_ok].  No count is asked for. *)
Definition item_passes (expand : YamlValue → result (list YamlScalar))
    (y : YamlData) (s : SectionName) (item : Item) : Prop :=
  match item with
  | IStr x => is_Some (section y s !! x)
  | _ => revealing_item_ok expand y s item
  end.

(** Every item passes, the expected section alternating from [s]. *)
Fixpoint items_pass (expand : YamlValue → result (list YamlScalar))
    (y : YamlData) (s : SectionName) (connection : list Item) : Prop :=
  match connection with
  | [] => True
  | item :: rest =>
      item_passes expand y s item ∧ items_pass expand y (flip s) rest
  end.

(** Is a cable expected? *)
Definition expects_cable (s : SectionName) : bool :=
  match s with
  | Cables => true
  | Connectors => false
  end.

(** The slot of an item that involves no template. *)
Definition plain_slot (expand : YamlValue → result (list YamlScalar))
    (n : nat) (item : Item) : Slot :=
  match item with
  | IStr s => replicate n (s, YInt 1)
  | IList l => (λ x, (x, YInt 1)) <$> l
  | IDict ((id, spec) :: _) =>
      match expand spec with
      | Ok pins => (λ pin, (id, pin)) <$> pins
      | Raise _ => []
      end
  | IDict [] => []
  end.

(** The state only grows: registered connectors and emitted links are
    kept in place, cables are untouched, no count goes down. *)
Definition extends (st st' : State) : Prop :=
  (∃ more, h_connectors (harness st') = h_connectors (harness st) ++ more) ∧
  h_cables (harness st') = h_cables (harness st) ∧
  (∃ more, h_links (harness st') = h_links (harness st) ++ more) ∧
  (∀ t, default 0 (autogenerated_ids st !! t) ≤ default 0 (autogenerated_ids st' !! t)).

(** A document with a template [F], two plain connectors and a cable. *)
Definition doc_FXW : YamlData :=
  {| connectors := {[ "F" := template "pins" 1; "X" := plain "pins" 1 ]};
     cables := {[ "W" := plain "wirecount" 2 ]};
     connections := [] |}.

(** The state in which the connection loop of [doc_FXW] starts. *)
Definition st_FXW : State :=
  {| autogenerated_ids := ∅;
     harness :=
       {| h_connectors := [("X", plain "pins" 1)];
          h_cables := [("W", plain "wirecount" 2)];
          h_links := [] |} |}.

(** The set [[F, {W: "1-2"}, X]] in [doc_FXW]: its slots, and the state
    after it. *)
Definition row_FWX : list Item :=
  [IStr "F"; IDict [("W", pins12)]; IStr "X"].

Definition slots_FWX : list Slot :=
  [[("_F_1", YInt 1); ("_F_2", YInt 1)];
   [("W", YInt 1); ("W", YInt 2)];
   [("X", YInt 1); ("X", YInt 1)]].

Definition st_FWX : State :=
  {| autogenerated_ids := {[ "F" := 2 ]};
     harness :=
       {| h_connectors :=
            [("X", plain "pins" 1); ("_F_1", template "pins" 1);
             ("_F_2", template "pins" 1)];
          h_cables := [("W", plain "wirecount" 2)];
          h_links :=
            [{| from_ := Some ("_F_1", YInt 1); via := ("W", YInt 1);
                to_ := Some ("X", YInt 1) |};
             {| from_ := Some ("_F_2", YInt 1); via := ("W", YInt 2);
                to_ := Some ("X", YInt 1) |}] |} |}.


(** * Properties *)

(** ** Basic facts about the monads and the section test *)

Lemma is_in_true y s x : is_in y s x = true ↔ is_Some (section y s !! x).
Proof. unfold is_in. apply bool_decide_eq_true. Qed.

Lemma is_in_false y s x : is_in y s x = false ↔ section y s !! x = None.
Proof.
  unfold is_in. rewrite bool_decide_eq_false, <- eq_None_not_Some. done.
Qed.

Lemma check_in_Ok y s x : is_Some (section y s !! x) → check_in y s x = Ok ().
Proof. intros H. unfold check_in. apply is_in_true in H. by rewrite H. Qed.

Lemma check_in_Raise y s x :
  section y s !! x = None → check_in y s x = Raise (RoleAlternationViolation x s).
Proof. intros H. unfold check_in. apply is_in_false in H. by rewrite H. Qed.

Lemma flip_flip s : flip (flip s) = s.
Proof. by destruct s. Qed.

Lemma section_at_S s i : section_at s (S i) = section_at (flip s) i.
Proof.
  unfold section_at. revert s. induction i as [|i IH]; intros s; [done|].
  simpl in *. by rewrite IH.
Qed.

Lemma first_section_connectors y x :
  is_Some (connectors y !! x) → first_section y x = Ok Connectors.
Proof.
  intros H. unfold first_section.
  assert (is_in y Connectors x = true) as -> by by apply is_in_true. done.
Qed.

Lemma first_section_cables y x :
  connectors y !! x = None → is_Some (cables y !! x) →
  first_section y x = Ok Cables.
Proof.
  intros Hn Hc. unfold first_section.
  assert (is_in y Connectors x = false) as -> by by apply is_in_false.
  assert (is_in y Cables x = true) as -> by by apply is_in_true. done.
Qed.

Section Validation.

Variable expand : YamlValue → result (list YamlScalar).

Lemma check_subitems_Ok y s l :
  Forall (λ x, is_Some (section y s !! x)) l → check_subitems y s l = Ok ().
Proof.
  induction 1 as [|x l Hx _ IH]; [done|].
  simpl. rewrite check_in_Ok by done. exact IH.
Qed.

(** Strings never touch [itemcount]. *)
Lemma check_items_scalars y s c names :
  alternates y (flip s) names →
  check_items expand y s c (IStr <$> names) = Ok c.
Proof.
  revert s. induction names as [|x names IH]; intros s H; [done|].
  destruct H as [Hx H]. simpl. rewrite check_in_Ok by done. simpl.
  apply IH. exact H.
Qed.

Lemma check_items_app y s c pre rest :
  check_items expand y s c (pre ++ rest) =
  c' ← check_items expand y s c pre;
  check_items expand y (section_at s (length pre)) c' rest.
Proof.
  revert s c. induction pre as [|item pre IH]; intros s c; [done|].
  cbn [app length]. rewrite section_at_S. cbn [check_items].
  destruct item as [x|l|d].
  - destruct (check_in y (flip s) x); [|done]. cbn. apply IH.
  - destruct (check_subitems y (flip s) l); [|done]. cbn.
    destruct (check_count c (length l)); [|done]. cbn. apply IH.
  - destruct d as [|[k spec] [|? ?]]; try done.
    destruct (expand spec) as [pins|]; [|done]. cbn.
    destruct (check_in y (flip s) k); [|done]. cbn.
    destruct (check_count c (length pins)); [|done]. cbn. apply IH.
Qed.

(** Once a count is held, the check keeps it or raises. *)
Lemma check_items_keeps y s n connection c :
  check_items expand y s (Some n) connection = Ok c → c = Some n.
Proof.
  revert s. induction connection as [|item rest IH]; intros s; cbn.
  { congruence. }
  destruct item as [x|l|d].
  - destruct (check_in y (flip s) x); [|done]. cbn. apply IH.
  - destruct (check_subitems y (flip s) l); [|done]. cbn.
    destruct (decide (length l ≠ n)) as [|Heq]; [done|]. cbn.
    apply dec_stable in Heq. rewrite Heq. apply IH.
  - destruct d as [|[k spec] [|? ?]]; try done.
    destruct (expand spec) as [pins|]; [|done]. cbn.
    destruct (check_in y (flip s) k); [|done]. cbn.
    destruct (decide (length pins ≠ n)) as [|Heq]; [done|]. cbn.
    apply dec_stable in Heq. rewrite Heq. apply IH.
Qed.

(** The count that the check returns is the contribution of the first
    list or dict item. *)
Lemma check_items_first y s connection c :
  check_items expand y s None connection = Ok c →
  c = first_contribution expand connection.
Proof.
  revert s. induction connection as [|item rest IH]; intros s; cbn.
  { congruence. }
  destruct item as [x|l|d].
  - destruct (check_in y (flip s) x); [|done]. cbn. apply IH.
  - destruct (check_subitems y (flip s) l); [|done]. cbn.
    apply check_items_keeps.
  - destruct d as [|[k spec] [|? ?]]; try done.
    destruct (expand spec) as [pins|] eqn:E; [|done]. cbn.
    destruct (check_in y (flip s) k); [|done]. cbn.
    rewrite E. apply check_items_keeps.
Qed.

(** Only a set of strings passes the loop without a count. *)
Lemma check_items_None_strings y s connection :
  check_items expand y s None connection = Ok None →
  ∃ names, connection = IStr <$> names ∧ alternates y (flip s) names.
Proof.
  revert s. induction connection as [|item rest IH]; intros s; cbn.
  { intros _. by exists []. }
  destruct item as [x|l|d].
  - unfold check_in. destruct (is_in y (flip s) x) eqn:Hx; [|done]. cbn.
    intros (names & -> & Halt)%IH. exists (x :: names).
    split; [done|]. split; [by apply is_in_true|done].
  - destruct (check_subitems y (flip s) l); [|done]. cbn.
    by intros [=]%check_items_keeps.
  - destruct d as [|[k spec] [|? ?]]; try done.
    destruct (expand spec) as [pins|]; [|done]. cbn.
    destruct (check_in y (flip s) k); [|done]. cbn.
    by intros [=]%check_items_keeps.
Qed.

(** A list or dict item that passes its own checks is rejected for its
    length alone. *)
Lemma check_items_mismatch y s n item m rest :
  revealing_item_ok expand y (flip s) item →
  contribution expand item = Some m →
  m ≠ n →
  check_items expand y s (Some n) (item :: rest) = Raise CardinalityMismatch.
Proof.
  intros Hok Hm Hne. destruct item as [x|l|d]; cbn in *; [done| |].
  - rewrite check_subitems_Ok by done. cbn.
    injection Hm as <-. by rewrite decide_True.
  - destruct d as [|[k spec] [|? ?]]; try done.
    destruct Hok as [Hk _]. destruct (expand spec) as [pins|]; [|done]. cbn.
    rewrite check_in_Ok by done. cbn.
    injection Hm as <-. by rewrite decide_True.
Qed.

End Validation.

(** ** The connection loop on a rectangular [connection_list] *)

Lemma with_links_nil h : with_links h [] = h.
Proof. destruct h. unfold with_links. cbn. by rewrite app_nil_r. Qed.

Lemma with_links_app h ls ls' :
  with_links (with_links h ls) ls' = with_links h (ls ++ ls').
Proof. unfold with_links. cbn. by rewrite app_assoc. Qed.

Lemma connect_with_links f v t h :
  connect f v t h = with_links h [{| from_ := f; via := v; to_ := t |}].
Proof. done. Qed.

Lemma at_rectangular n (cl : list Slot) i j :
  rectangular n cl → i < length cl → j < n →
  ∃ p, at_ cl i j = Ok p ∧ end_at cl i j = Some p.
Proof.
  intros Hrect Hi Hj.
  destruct (lookup_lt_is_Some_2 cl i Hi) as [item Hitem].
  assert (length item = n) as Hlen.
  { eapply (proj1 (Forall_lookup _ _) Hrect); eauto. }
  destruct (lookup_lt_is_Some_2 item j) as [p Hp]; [lia|].
  exists p. unfold at_, end_at. rewrite Hitem. cbn. by rewrite Hp.
Qed.

Lemma from_end_rectangular n (cl : list Slot) i j con :
  rectangular n cl → i < length cl → j < n →
  from_end cl i j = Ok (from_ (link cl i j con)).
Proof.
  intros Hrect Hi Hj. unfold from_end, link. cbn.
  destruct (decide (i = 0)); [done|].
  destruct (at_rectangular n cl (i - 1) j) as (p & -> & ->); auto; lia.
Qed.

Lemma to_end_rectangular n (cl : list Slot) i j con :
  rectangular n cl → i < length cl → j < n →
  to_end cl i j = Ok (to_ (link cl i j con)).
Proof.
  intros Hrect Hi Hj. unfold to_end, link. cbn.
  destruct (decide (i = length cl - 1)); [done|].
  destruct (at_rectangular n cl (i + 1) j) as (p & -> & ->); auto; lia.
Qed.

Lemma connect_pins_rectangular n (cl : list Slot) i rest j h :
  rectangular n cl → i < length cl → j + length rest = n →
  connect_pins cl i j rest h =
  (with_links h (imap (λ k, link cl i (j + k)) rest), Ok ()).
Proof.
  intros Hrect Hi. revert j h.
  induction rest as [|con rest IH]; intros j h Hj; cbn.
  { by rewrite with_links_nil. }
  cbn in Hj.
  rewrite (from_end_rectangular n cl i j con), (to_end_rectangular n cl i j con)
    by (auto; lia).
  rewrite IH by lia. rewrite connect_with_links, with_links_app.
  do 2 f_equal. cbn. replace (j + 0) with j by lia. f_equal.
  apply imap_ext. intros k x _. cbn. f_equal. lia.
Qed.

Lemma connect_slots_rectangular n (cl : list Slot) rest i h :
  rectangular n cl → 0 < n → i + length rest = length cl →
  Forall (λ item : Slot, length item = n) rest →
  connect_slots cl i rest h =
  (with_links h (concat (imap (λ k, slot_links (h_cables h) cl (i + k)) rest)), Ok ()).
Proof.
  intros Hrect Hn. revert i h.
  induction rest as [|item rest IH]; intros i h Hi Hrest; cbn.
  { by rewrite with_links_nil. }
  cbn in Hi. inversion Hrest as [|? ? Hlen Hrest']; subst.
  destruct item as [|[id pin] item]; [cbn in Hn; lia|].
  assert (∀ cbls, imap (λ k, slot_links cbls cl (S i + k)) rest =
                  imap ((λ k, slot_links cbls cl (i + k)) ∘ S) rest) as Hshift.
  { intros cbls. apply imap_ext. intros k x _. cbn. f_equal. lia. }
  unfold slot_links at 1. cbn [cable_slot].
  replace (i + 0) with i by lia.
  destruct (registered id (h_cables h)) eqn:Hreg.
  - rewrite (connect_pins_rectangular (length ((id, pin) :: item))) by (auto; lia).
    rewrite IH by (auto; lia). rewrite with_links_app. cbn [h_cables with_links].
    by rewrite Hshift.
  - rewrite IH by (auto; lia). by rewrite Hshift.
Qed.

(** With slots of equal, positive length the loop cannot raise. *)
Lemma connect_all_rectangular n (cl : list Slot) st :
  rectangular n cl → 0 < n →
  connect_all cl st =
  (with_harness st (with_links (harness st) (set_links (h_cables (harness st)) cl)), Ok ()).
Proof.
  intros Hrect Hn. unfold connect_all.
  rewrite (connect_slots_rectangular n) by (auto; lia). done.
Qed.

(** With empty slots it raises at the first one, before any link. *)
Lemma connect_all_empty (cl : list Slot) st :
  rectangular 0 cl → cl ≠ [] →
  connect_all cl st = (with_harness st (harness st), Raise IndexError).
Proof.
  intros Hrect Hne. unfold connect_all.
  destruct cl as [|item cl]; [done|].
  inversion Hrect as [|? ? Hlen _]; subst.
  destruct item; [done|]. cbn in Hlen. lia.
Qed.

Lemma set_links_length n cbls (cl : list Slot) :
  rectangular n cl →
  length (set_links cbls cl) = length (List.filter (cable_slot cbls) cl) * n.
Proof.
  unfold set_links. intros Hrect.
  assert (∀ (g : nat → Slot → list WireLink) (l : list Slot),
    (∀ k item, length (g k item) = if cable_slot cbls item then length item else 0) →
    Forall (λ item : Slot, length item = n) l →
    length (concat (imap g l)) = length (List.filter (cable_slot cbls) l) * n) as Hgen.
  { intros g l. revert g. induction l as [|item l IH]; intros g Hg Hl; [done|].
    inversion Hl as [|? ? Hlen Hl']; subst. cbn.
    rewrite length_app, Hg, (IH (g ∘ S)); auto.
    - destruct (cable_slot cbls item); cbn; lia.
    - intros k it. apply Hg. }
  apply Hgen; [|done].
  intros k item. unfold slot_links.
  destruct (cable_slot cbls item); [|done]. by rewrite length_imap.
Qed.

(** ** What a successful check guarantees *)

Section Checked.

Variable expand : YamlValue → result (list YamlScalar).

Lemma check_items_fits y s c connection n :
  check_items expand y s c connection = Ok (Some n) →
  Forall (fits expand n) connection.
Proof.
  revert s c. induction connection as [|item rest IH]; intros s c; cbn.
  { constructor. }
  destruct item as [x|l|d].
  - destruct (check_in y (flip s) x); [|done]. cbn.
    intros H. constructor; [done|]. by eapply IH.
  - destruct (check_subitems y (flip s) l); [|done]. cbn.
    destruct (check_count c (length l)); [|done]. cbn.
    intros H. pose proof (check_items_keeps _ _ _ _ _ _ H) as [= ->].
    constructor; [done|]. by eapply IH.
  - destruct d as [|[k spec] [|? ?]]; try done.
    destruct (expand spec) as [pins|] eqn:E; [|done]. cbn.
    destruct (check_in y (flip s) k); [|done]. cbn.
    destruct (check_count c (length pins)); [|done]. cbn.
    intros H. pose proof (check_items_keeps _ _ _ _ _ _ H) as [= ->].
    constructor; [by exists pins|]. by eapply IH.
Qed.

Lemma check_connection_Ok y connection n :
  check_connection expand y connection = Ok n →
  connection ≠ [] ∧ Forall (fits expand n) connection ∧
  first_contribution expand connection = Some n.
Proof.
  unfold check_connection. intros H.
  destruct (first_item connection) as [x|] eqn:Hx; [|done]. cbn in H.
  destruct (first_section y x) as [s|]; [|done]. cbn in H.
  destruct (check_items expand y (flip s) None connection) as [c|] eqn:Hc; [|done].
  cbn in H. destruct c as [m|]; [|done]. injection H as ->.
  split; [by destruct connection|]. split.
  - by eapply check_items_fits.
  - symmetry. by eapply check_items_first.
Qed.

End Checked.

(** ** Populating [connection_list] *)

Lemma bump_app ids ts ts' : bump ids (ts ++ ts') = bump (bump ids ts) ts'.
Proof. revert ids. induction ts as [|t ts IH]; intros ids; [done|]. cbn. apply IH. Qed.

Lemma number_from_app ids ts ts' :
  number_from ids (ts ++ ts') = number_from ids ts ++ number_from (bump ids ts) ts'.
Proof.
  revert ids. induction ts as [|t ts IH]; intros ids; [done|].
  cbn. by rewrite IH.
Qed.

Lemma instances_app y evs evs' :
  instances y (evs ++ evs') = instances y evs ++ instances y evs'.
Proof. apply omap_app. Qed.

Lemma grows_by_nil y st : grows_by y [] st st.
Proof. unfold grows_by. cbn. by rewrite app_nil_r. Qed.

Lemma grows_by_app y ts ts' st st' st'' :
  grows_by y ts st st' → grows_by y ts' st' st'' → grows_by y (ts ++ ts') st st''.
Proof.
  intros (Hi & Hc & Hb & Hl) (Hi' & Hc' & Hb' & Hl'). unfold grows_by.
  rewrite bump_app, number_from_app, instances_app, app_assoc.
  rewrite Hi', Hc', Hb', Hl', Hi, Hc, Hb, Hl. done.
Qed.

Lemma single_pin_frame y x st : frame st (single_pin y x st).1.
Proof.
  unfold single_pin, frame, add_connector.
  destruct (connectors y !! x) as [a|]; [|done].
  destruct (autogenerate a); [|done].
  by destruct (registered _ _).
Qed.

Lemma single_pin_Ok y x st st' p :
  single_pin y x st = (st', Ok p) →
  grows_by y (List.filter (is_template y) [x]) st st'.
Proof.
  unfold single_pin, is_template, add_connector. cbn.
  destruct (connectors y !! x) as [a|] eqn:Ha; [|done].
  destruct (autogenerate a) eqn:Hauto.
  - destruct (registered _ _); [done|]. intros [= <- <-].
    unfold grows_by, instances. cbn. by rewrite Ha.
  - intros [= <- <-]. apply grows_by_nil.
Qed.

Lemma single_pins_frame y l st : frame st (single_pins y l st).1.
Proof.
  revert st. induction l as [|x l IH]; intros st; [done|].
  cbn. unfold mbind, M_bind.
  pose proof (single_pin_frame y x st) as [Hb Hl].
  destruct (single_pin y x st) as [st1 [p|e]]; [|done]. cbn in *.
  pose proof (IH st1) as [Hb' Hl'].
  destruct (single_pins y l st1) as [st2 [ps|e]]; cbn in *;
    split; congruence.
Qed.

Lemma single_pins_Ok y l st st' sublist :
  single_pins y l st = (st', Ok sublist) →
  grows_by y (List.filter (is_template y) l) st st' ∧ length sublist = length l.
Proof.
  revert st sublist. induction l as [|x l IH]; intros st sublist.
  { intros [= <- <-]. split; [apply grows_by_nil|done]. }
  cbn [single_pins]. unfold mbind, M_bind.
  destruct (single_pin y x st) as [st1 [p|e]] eqn:Hp; [|done].
  destruct (single_pins y l st1) as [st2 [ps|e]] eqn:Hps; [|done].
  intros [= <- <-]. apply single_pin_Ok in Hp. apply IH in Hps as [Hg Hlen].
  split; [|cbn; by rewrite Hlen].
  change (x :: l) with ([x] ++ l). rewrite List.filter_app.
  by eapply grows_by_app.
Qed.

Section Populate.

Variable expand : YamlValue → result (list YamlScalar).

Lemma frame_refl st : frame st st.
Proof. done. Qed.

Lemma frame_trans st st' st'' : frame st st' → frame st' st'' → frame st st''.
Proof. intros [? ?] [? ?]. split; congruence. Qed.

Lemma grows_by_frame y ts st st' : grows_by y ts st st' → frame st st'.
Proof. intros (_ & _ & ? & ?). by split. Qed.

Lemma populate_item_frame y n item st : frame st (populate_item expand y n item st).1.
Proof.
  destruct item as [x|l|d]; cbn.
  - apply single_pins_frame.
  - apply single_pins_frame.
  - destruct d as [|[k spec] ?]; [done|]. by destruct (expand spec).
Qed.

Lemma populate_item_Ok y n item st st' sublist :
  fits expand n item →
  populate_item expand y n item st = (st', Ok sublist) →
  grows_by y (occurrences y n item) st st' ∧ length sublist = n.
Proof.
  destruct item as [x|l|d]; cbn.
  - intros _ H. apply single_pins_Ok in H as [Hg Hlen].
    by rewrite length_replicate in Hlen.
  - intros Hn H. apply single_pins_Ok in H as [Hg Hlen]. split; congruence.
  - destruct d as [|[k spec] [|? ?]]; try done.
    intros (pins & -> & Hlen) [= <- <-]. split; [apply grows_by_nil|].
    by rewrite length_fmap.
Qed.

Lemma populate_frame y n connection st : frame st (populate expand y n connection st).1.
Proof.
  revert st. induction connection as [|item rest IH]; intros st; [done|].
  cbn. unfold mbind, M_bind.
  pose proof (populate_item_frame y n item st) as H1.
  destruct (populate_item expand y n item st) as [st1 [sublist|e]]; [|done].
  cbn in H1. pose proof (IH st1) as H2.
  destruct (populate expand y n rest st1) as [st2 [cl|e]]; cbn in *;
    by eapply frame_trans.
Qed.

Lemma populate_Ok y n connection st st' cl :
  Forall (fits expand n) connection →
  populate expand y n connection st = (st', Ok cl) →
  grows_by y (set_occurrences y n connection) st st' ∧
  rectangular n cl ∧ length cl = length connection.
Proof.
  intros Hfits. revert st cl.
  induction Hfits as [|item rest Hitem _ IH]; intros st cl.
  { intros [= <- <-]. split; [apply grows_by_nil|]. split; [constructor|done]. }
  cbn [populate]. unfold mbind, M_bind.
  destruct (populate_item expand y n item st) as [st1 [sublist|e]] eqn:H1; [|done].
  destruct (populate expand y n rest st1) as [st2 [cl'|e]] eqn:H2; [|done].
  intros [= <- <-].
  apply populate_item_Ok in H1 as [Hg1 Hlen]; [|done].
  apply IH in H2 as (Hg2 & Hrect & Hlen').
  split; [|split].
  - unfold set_occurrences. cbn. by eapply grows_by_app.
  - by constructor.
  - cbn. by rewrite Hlen'.
Qed.

(** ** One connection set *)

Lemma parse_connection_invalid y connection e st :
  check_connection expand y connection = Raise e →
  parse_connection expand y connection st = (st, Raise e).
Proof. intros H. unfold parse_connection. by rewrite H. Qed.

Lemma with_harness_id st : with_harness st (harness st) = st.
Proof. by destruct st. Qed.

(** A set that is processed to the end: the check gave [n > 0], the
    slots are rectangular, and the links of [set_links] were emitted after
    the instances had been registered. *)
Lemma parse_connection_Ok y connection st st' n cl :
  parse_connection expand y connection st = (st', Ok (n, cl)) →
  check_connection expand y connection = Ok n ∧
  0 < n ∧ rectangular n cl ∧ length cl = length connection ∧
  ∃ st1, populate expand y n connection st = (st1, Ok cl) ∧
         grows_by y (set_occurrences y n connection) st st1 ∧
         st' = with_harness st1
                 (with_links (harness st1) (set_links (h_cables (harness st1)) cl)).
Proof.
  unfold parse_connection.
  destruct (check_connection expand y connection) as [m|] eqn:Hcheck; [|done].
  apply check_connection_Ok in Hcheck as (Hne & Hfits & _).
  unfold mbind, M_bind.
  destruct (populate expand y m connection st) as [st1 [cl'|e]] eqn:Hpop; [|done].
  pose proof (populate_Ok _ _ _ _ _ _ Hfits Hpop) as (Hg & Hrect & Hlen).
  destruct (decide (m = 0)) as [->|Hm].
  { rewrite connect_all_empty; [done..|].
    intros ->. by destruct connection. }
  rewrite (connect_all_rectangular m) by (auto; lia).
  intros [= <- <- <-]. repeat split; auto; [lia|]. by exists st1.
Qed.

(** A set that raises: no link was emitted for it. *)
Lemma parse_connection_Raise y connection st st' e :
  parse_connection expand y connection st = (st', Raise e) →
  frame st st'.
Proof.
  unfold parse_connection.
  destruct (check_connection expand y connection) as [m|] eqn:Hcheck;
    [|by intros [= <- _]].
  apply check_connection_Ok in Hcheck as (Hne & Hfits & _).
  unfold mbind, M_bind.
  pose proof (populate_frame y m connection st) as Hframe.
  destruct (populate expand y m connection st) as [st1 [cl'|e']] eqn:Hpop;
    [|by intros [= <- _]].
  pose proof (populate_Ok _ _ _ _ _ _ Hfits Hpop) as (Hg & Hrect & Hlen).
  destruct (decide (m = 0)) as [->|Hm].
  - rewrite connect_all_empty; [|done|intros ->; by destruct connection].
    rewrite with_harness_id. by intros [= <- _].
  - rewrite (connect_all_rectangular m) by (auto; lia). done.
Qed.

End Populate.

(** ** Generated names *)

Lemma append_nil (s : string) : "" +:+ s = s.
Proof. done. Qed.

Lemma append_cons c (s s' : string) : String c s +:+ s' = String c (s +:+ s').
Proof. done. Qed.

Lemma str_inj n n' : str n = str n' → n = n'.
Proof.
  unfold str. intros H. apply Unsigned.to_uint_inj.
  pose proof (NilEmpty.usu (Nat.to_uint n)) as H1.
  pose proof (NilEmpty.usu (Nat.to_uint n')) as H2.
  rewrite H in H1. congruence.
Qed.

Lemma string_of_uint_digits d :
  occurs "_" (NilEmpty.string_of_uint d) = false.
Proof. induction d; cbn; auto. Qed.

Lemma str_no_underscore n : occurs "_" (str n) = false.
Proof. apply string_of_uint_digits. Qed.

Lemma occurs_after_sep c t d : occurs c (t +:+ String c d) = true.
Proof.
  induction t as [|c' t IH]; rewrite ?append_nil, ?append_cons; cbn.
  - by rewrite bool_decide_eq_true_2.
  - rewrite IH. apply orb_true_r.
Qed.

(** The part after the last underscore determines the split. *)
Lemma append_sep_inj t t' d d' :
  occurs "_" d = false → occurs "_" d' = false →
  t +:+ String "_" d = t' +:+ String "_" d' → t = t' ∧ d = d'.
Proof.
  intros Hd Hd'. revert t'.
  induction t as [|c t IH]; intros [|c' t'];
    rewrite ?append_nil, ?append_cons; intros H.
  - by injection H as ->.
  - injection H as H1 H2. rewrite H2, occurs_after_sep in Hd. done.
  - injection H as H1 H2. rewrite <- H2, occurs_after_sep in Hd'. done.
  - injection H as -> H. apply IH in H as [-> ->]. done.
Qed.

Lemma new_id_inj t n t' n' : new_id t n = new_id t' n' → t = t' ∧ n = n'.
Proof.
  unfold new_id. rewrite !append_cons, !append_nil. intros [= H].
  apply append_sep_inj in H as [-> H]; auto using str_no_underscore.
  by apply str_inj in H as ->.
Qed.

Lemma instance_name_inj tn tn' : instance_name tn = instance_name tn' → tn = tn'.
Proof.
  destruct tn, tn'. unfold instance_name. cbn.
  intros H. by apply new_id_inj in H as [-> ->].
Qed.

(** ** Numbering *)

Lemma uses_cons t x ts :
  uses t (x :: ts) = (if decide (x = t) then 1 else 0) + uses t ts.
Proof.
  unfold uses. cbn. destruct (decide (x = t)).
  - by rewrite bool_decide_eq_true_2.
  - by rewrite bool_decide_eq_false_2.
Qed.

Lemma number_from_names ids ts : (number_from ids ts).*1 = ts.
Proof.
  revert ids. induction ts as [|t ts IH]; intros ids; [done|].
  cbn. by rewrite IH.
Qed.

(** The use at position [i] gets the count held before plus the number of
    earlier uses of the same template, plus one. *)
Lemma number_from_lookup ids ts i t :
  ts !! i = Some t →
  number_from ids ts !! i = Some (t, default 0 (ids !! t) + uses t (take i ts) + 1).
Proof.
  revert ids i. induction ts as [|x ts IH]; intros ids i; [done|].
  destruct i as [|i]; cbn -[uses].
  - intros [= ->]. do 2 f_equal. unfold uses. cbn. lia.
  - intros H. rewrite (IH _ _ H). do 2 f_equal. rewrite uses_cons.
    destruct (decide (x = t)) as [->|Hne].
    + rewrite lookup_insert_eq. cbn. lia.
    + rewrite lookup_insert_ne by done. lia.
Qed.

(** The count of a template after the uses [ts]. *)
Lemma bump_lookup ids ts t :
  bump ids ts !! t =
  if decide (uses t ts = 0) then ids !! t
  else Some (default 0 (ids !! t) + uses t ts).
Proof.
  revert ids. induction ts as [|x ts IH]; intros ids; [done|].
  cbn [bump]. rewrite IH, uses_cons.
  destruct (decide (x = t)) as [->|Hne].
  - rewrite lookup_insert_eq. cbn.
    rewrite (decide_False (P := S (uses t ts) = 0)) by lia.
    destruct (decide (uses t ts = 0)) as [->|?]; f_equal; lia.
  - rewrite lookup_insert_ne by done. cbn. done.
Qed.

Lemma number_from_above ids ts t k :
  (t, k) ∈ number_from ids ts → default 0 (ids !! t) < k.
Proof.
  revert ids. induction ts as [|x ts IH]; intros ids; cbn.
  { by intros ?%elem_of_nil. }
  intros [[= -> ->]|H]%elem_of_cons; [lia|].
  apply IH in H. destruct (decide (x = t)) as [->|Hne].
  - rewrite lookup_insert_eq in H. cbn in H. lia.
  - by rewrite lookup_insert_ne in H.
Qed.

Lemma number_from_NoDup ids ts : NoDup (number_from ids ts).
Proof.
  revert ids. induction ts as [|x ts IH]; intros ids; cbn; constructor.
  - intros H%number_from_above. rewrite lookup_insert_eq in H. cbn in H. lia.
  - apply IH.
Qed.

(** Distinct uses never get the same name. *)
Lemma instance_names_NoDup ids ts : NoDup (instance_name <$> number_from ids ts).
Proof.
  apply NoDup_fmap_2; [|apply number_from_NoDup].
  intros tn tn'. apply instance_name_inj.
Qed.

Lemma filter_templates y l :
  Forall (λ t, is_Some (connectors y !! t)) (List.filter (is_template y) l).
Proof.
  apply Forall_forall. intros t Ht%list_elem_of_In%List.filter_In.
  destruct Ht as [_ Ht]. unfold is_template in Ht.
  by destruct (connectors y !! t).
Qed.

(** Each numbered use of a declared template yields one entry. *)
Lemma instances_names y numbered :
  Forall (λ t, is_Some (connectors y !! t)) numbered.*1 →
  (instances y numbered).*1 = instance_name <$> numbered.
Proof.
  induction numbered as [|[t n] evs IH]; [done|].
  cbn. intros [[a Ha] Hall]%Forall_cons. rewrite Ha. cbn.
  f_equal. by apply IH.
Qed.

(** ** Registering the declared components *)

Lemma registered_false name reg : name ∉ reg.*1 → registered name reg = false.
Proof. intros H. unfold registered. by apply bool_decide_eq_false. Qed.

Lemma add_connector_fresh name a h :
  name ∉ (h_connectors h).*1 →
  add_connector name a h =
    Ok {| h_connectors := h_connectors h ++ [(name, a)];
          h_cables := h_cables h; h_links := h_links h |}.
Proof. intros H. unfold add_connector. by rewrite registered_false. Qed.

Lemma add_cable_fresh name a h :
  name ∉ (h_cables h).*1 →
  add_cable name a h =
    Ok {| h_connectors := h_connectors h;
          h_cables := h_cables h ++ [(name, a)]; h_links := h_links h |}.
Proof. intros H. unfold add_cable. by rewrite registered_false. Qed.

Lemma add_connectors_Ok keep items h :
  NoDup items.*1 →
  Forall (λ k, k ∉ (h_connectors h).*1) items.*1 →
  ∃ h', add_items add_connector keep items h = Ok h' ∧
        h_connectors h' = h_connectors h ++ List.filter (λ p, keep p.2) items ∧
        h_cables h' = h_cables h ∧ h_links h' = h_links h.
Proof.
  revert h. induction items as [|[k a] items IH]; intros h Hnd Hfresh.
  { exists h. cbn. by rewrite app_nil_r. }
  cbn in Hnd, Hfresh. apply NoDup_cons in Hnd as [Hk Hnd].
  apply Forall_cons in Hfresh as [Hkh Hfresh]. cbn.
  destruct (keep a).
  - rewrite add_connector_fresh by done. cbn.
    destruct (IH {| h_connectors := h_connectors h ++ [(k, a)];
                    h_cables := h_cables h; h_links := h_links h |})
      as (h' & -> & Hc & Hb & Hl); [done| |].
    { cbn. eapply Forall_impl; [apply Forall_and; split;
        [exact Hfresh|apply Forall_forall; intros x Hx; exact Hx]|].
      cbn. intros x [Hx1 Hx2]. rewrite fmap_app.
      intros [?|Hin%list_elem_of_singleton]%elem_of_app; [done|].
      cbn in Hin. by subst. }
    exists h'. cbn in *. rewrite Hc, <- app_assoc. done.
  - cbn. apply IH; done.
Qed.

Lemma add_cables_Ok items h :
  NoDup items.*1 →
  Forall (λ k, k ∉ (h_cables h).*1) items.*1 →
  ∃ h', add_items add_cable (λ _, true) items h = Ok h' ∧
        h_cables h' = h_cables h ++ items ∧
        h_connectors h' = h_connectors h ∧ h_links h' = h_links h.
Proof.
  revert h. induction items as [|[k a] items IH]; intros h Hnd Hfresh.
  { exists h. cbn. by rewrite app_nil_r. }
  cbn in Hnd, Hfresh. apply NoDup_cons in Hnd as [Hk Hnd].
  apply Forall_cons in Hfresh as [Hkh Hfresh]. cbn.
  rewrite add_cable_fresh by done. cbn.
  destruct (IH {| h_connectors := h_connectors h;
                  h_cables := h_cables h ++ [(k, a)]; h_links := h_links h |})
    as (h' & -> & Hc & Hb & Hl); [done| |].
  { cbn. eapply Forall_impl; [apply Forall_and; split;
      [exact Hfresh|apply Forall_forall; intros x Hx; exact Hx]|].
    cbn. intros x [Hx1 Hx2]. rewrite fmap_app.
    intros [?|Hin%list_elem_of_singleton]%elem_of_app; [done|].
    cbn in Hin. by subst. }
  exists h'. cbn in *. rewrite Hc, <- app_assoc. done.
Qed.

(** Designators are unique within a section, so the registry takes every
    declared component: the connectors that are not templates, and all
    cables. *)
Lemma add_declared_Ok y :
  ∃ h0, add_declared y = Ok h0 ∧
        h_connectors h0 =
          List.filter (λ p, negb (autogenerate p.2)) (map_to_list (connectors y)) ∧
        h_cables h0 = map_to_list (cables y) ∧
        h_links h0 = [].
Proof.
  unfold add_declared.
  destruct (add_connectors_Ok (λ a, negb (autogenerate a))
              (map_to_list (connectors y)) empty_harness)
    as (h1 & -> & Hc1 & Hb1 & Hl1).
  { apply NoDup_fst_map_to_list. }
  { apply Forall_forall. intros k _. cbn. apply not_elem_of_nil. }
  cbn. destruct (add_cables_Ok (map_to_list (cables y)) h1)
    as (h2 & -> & Hb2 & Hc2 & Hl2).
  { apply NoDup_fst_map_to_list. }
  { apply Forall_forall. intros k _. rewrite Hb1. cbn. apply not_elem_of_nil. }
  exists h2. rewrite Hb2, Hc2, Hl2, Hc1, Hb1, Hl1. done.
Qed.

(** [harness.cables] holds exactly the designators of the cables section
    when the connection loop starts. *)
Lemma add_declared_cables y h0 x :
  add_declared y = Ok h0 →
  registered x (h_cables h0) = is_in y Cables x.
Proof.
  destruct (add_declared_Ok y) as (h & -> & _ & Hb & _). intros [= <-].
  unfold registered, is_in. rewrite Hb. apply bool_decide_ext. cbn.
  rewrite list_elem_of_fmap. split.
  - intros [[k a] [-> Hin%elem_of_map_to_list]]. by exists a.
  - intros [a Ha]. exists (x, a). split; [done|]. by apply elem_of_map_to_list.
Qed.

(** ** All connection sets of a document *)

Section Document.

Variable expand : YamlValue → result (list YamlScalar).

Lemma set_occurrences_templates y n connection :
  Forall (λ t, is_Some (connectors y !! t)) (set_occurrences y n connection).
Proof.
  unfold set_occurrences. apply Forall_concat, Forall_fmap, Forall_forall.
  intros item _. destruct item as [x|l|d]; cbn;
    [apply filter_templates..|constructor].
Qed.

Lemma document_occurrences_templates y conns :
  Forall (λ t, is_Some (connectors y !! t)) (document_occurrences expand y conns).
Proof.
  unfold document_occurrences. apply Forall_concat, Forall_fmap, Forall_forall.
  intros connection _. cbn.
  destruct (check_connection expand y connection);
    [apply set_occurrences_templates|constructor].
Qed.

(** The counts and the registry after a document that is processed to the
    end: the state threads through the sets, so the uses of all sets are
    numbered as one sequence. *)
Lemma parse_connections_Ok y conns st st' :
  parse_connections expand y conns st = (st', Ok ()) →
  autogenerated_ids st' =
    bump (autogenerated_ids st) (document_occurrences expand y conns) ∧
  h_connectors (harness st') =
    h_connectors (harness st) ++
    instances y (number_from (autogenerated_ids st) (document_occurrences expand y conns)) ∧
  h_cables (harness st') = h_cables (harness st).
Proof.
  revert st. induction conns as [|connection conns IH]; intros st.
  { intros [= <-]. cbn. by rewrite app_nil_r. }
  cbn [parse_connections]. unfold mbind, M_bind.
  destruct (parse_connection expand y connection st) as [st1 [[n cl]|e]] eqn:H1;
    [|done].
  intros H2. apply IH in H2 as (Hi2 & Hc2 & Hb2).
  apply parse_connection_Ok in H1 as (Hcheck & _ & _ & _ & st0 & _ & Hg & ->).
  destruct Hg as (Hi1 & Hc1 & Hb1 & _). cbn in Hi2, Hc2, Hb2.
  unfold document_occurrences. cbn [fmap list_fmap concat]. rewrite Hcheck.
  fold (document_occurrences expand y conns).
  rewrite bump_app, number_from_app, instances_app, app_assoc.
  rewrite Hi2, Hc2, Hb2, Hi1, Hc1, Hb1. done.
Qed.

End Document.

(** ** Items without a defect of their own *)

Section Passing.

Variable expand : YamlValue → result (list YamlScalar).

(** When every item passes on its own, the loop can only stop on a length
    mismatch; otherwise it ends with the count it held, or with the first
    contribution if it held none. *)
Lemma check_items_passing y e c connection :
  items_pass expand y (flip e) connection →
  check_items expand y e c connection = Raise CardinalityMismatch ∨
  check_items expand y e c connection =
    Ok (match c with
        | Some v => Some v
        | None => first_contribution expand connection
        end).
Proof.
  revert e c. induction connection as [|item rest IH]; intros e c.
  { intros _. right. by destruct c. }
  intros [Hitem Hrest]. cbn [check_items].
  destruct item as [x|l|d]; cbn in Hitem.
  - rewrite check_in_Ok by done. cbn.
    destruct (IH (flip e) c Hrest) as [ -> | -> ]; [by left|by right].
  - rewrite check_subitems_Ok by done. cbn.
    destruct c as [v|]; cbn.
    + destruct (decide (length l ≠ v)) as [|Heq]; [by left|].
      apply dec_stable in Heq. cbn.
      destruct (IH (flip e) (Some (length l)) Hrest) as [ -> | -> ];
        [by left|right; by rewrite Heq].
    + destruct (IH (flip e) (Some (length l)) Hrest) as [ -> | -> ];
        [by left|by right].
  - destruct d as [|[k spec] [|? ?]]; try done.
    destruct Hitem as [Hk Hspec].
    destruct (expand spec) as [pins|] eqn:E; [|done]. cbn.
    rewrite check_in_Ok by done. cbn.
    destruct c as [v|]; cbn.
    + destruct (decide (length pins ≠ v)) as [|Heq]; [by left|].
      apply dec_stable in Heq. cbn.
      destruct (IH (flip e) (Some (length pins)) Hrest) as [ -> | -> ];
        [by left|right; by rewrite Heq].
    + destruct (IH (flip e) (Some (length pins)) Hrest) as [ -> | -> ];
        [by left|right; by rewrite E].
Qed.

End Passing.

(** * The claims *)

Section Claims.

Variable expand : YamlValue → result (list YamlScalar).

(** C10.  Role inference looks the first designator up in the connectors
    before the cables: for a set whose first designator (unwrapped from a
    list or dict) is declared in both sections, the starting role is
    connector, never cable, and the check runs with connectors expected at
    the first position. *)
Theorem connectors_are_tried_first y connection x :
  first_item connection = Ok x →
  is_Some (connectors y !! x) →
  is_Some (cables y !! x) →
  start_role y connection = Ok Connectors ∧
  start_role y connection ≠ Ok Cables ∧
  check_connection expand y connection =
    (itemcount ← check_items expand y (flip Connectors) None connection;
     revealed itemcount).
Proof.
  intros Hx Hconn _. unfold start_role, check_connection. rewrite Hx. cbn.
  rewrite first_section_connectors by done. done.
Qed.

(** C4.  A set [[A, B, C]] of three declared connectors, [B] not being a
    cable, is rejected: [B] is reported as not being in the cables. *)
Theorem three_connectors_rejected y A B C st :
  is_Some (connectors y !! A) →
  is_Some (connectors y !! B) →
  is_Some (connectors y !! C) →
  cables y !! B = None →
  parse_connection expand y [IStr A; IStr B; IStr C] st =
    (st, Raise (RoleAlternationViolation B Cables)).
Proof.
  intros HA _ _ HB. apply parse_connection_invalid.
  unfold check_connection. cbn.
  rewrite first_section_connectors by done. cbn.
  rewrite (check_in_Ok y Connectors A) by done. cbn.
  rewrite (check_in_Raise y Cables B) by done. done.
Qed.

(** C2, as amended.  For a declared cable [cableA] that is not also
    declared as a connector and a declared connector [connB], the sets
    [[cableA, connB]] and [[connB, cableA]] both pass role inference and
    the alternation check, with opposite starting roles inferred from the
    first item; made of strings only, both are then rejected because no
    item revealed a count, and the state is left as it was. *)
Theorem alternation_inferred_from_first_item y cableA connB st :
  is_Some (cables y !! cableA) →
  connectors y !! cableA = None →
  is_Some (connectors y !! connB) →
  start_role y [IStr cableA; IStr connB] = Ok Cables ∧
  start_role y [IStr connB; IStr cableA] = Ok Connectors ∧
  check_items expand y (flip Cables) None [IStr cableA; IStr connB] = Ok None ∧
  check_items expand y (flip Connectors) None [IStr connB; IStr cableA] = Ok None ∧
  parse_connection expand y [IStr cableA; IStr connB] st =
    (st, Raise NoCardinalityRevealed) ∧
  parse_connection expand y [IStr connB; IStr cableA] st =
    (st, Raise NoCardinalityRevealed).
Proof.
  intros Hcable Hnot Hconn.
  assert (start_role y [IStr cableA; IStr connB] = Ok Cables) as H1.
  { unfold start_role. cbn. by apply first_section_cables. }
  assert (start_role y [IStr connB; IStr cableA] = Ok Connectors) as H2.
  { unfold start_role. cbn. by apply first_section_connectors. }
  assert (check_items expand y (flip Cables) None [IStr cableA; IStr connB] = Ok None)
    as H3.
  { apply (check_items_scalars expand y _ None [cableA; connB]). cbn. auto. }
  assert (check_items expand y (flip Connectors) None [IStr connB; IStr cableA] = Ok None)
    as H4.
  { apply (check_items_scalars expand y _ None [connB; cableA]). cbn. auto. }
  repeat split; try done.
  - apply parse_connection_invalid. unfold check_connection.
    unfold start_role in H1. cbn -[check_items] in H1 |- *. rewrite H1.
    cbn -[check_items] in H3 |- *. by rewrite H3.
  - apply parse_connection_invalid. unfold check_connection.
    unfold start_role in H2. cbn -[check_items] in H2 |- *. rewrite H2.
    cbn -[check_items] in H4 |- *. by rewrite H4.
Qed.

(** C6.  A set made of strings only, whose role inference succeeds and
    whose designators sit in alternating sections from the inferred role
    on, is rejected because no item revealed the number of connections;
    the state is left as it was. *)
Theorem strings_reveal_no_count y names s st :
  start_role y (IStr <$> names) = Ok s →
  alternates y s names →
  first_contribution expand (IStr <$> names) = None ∧
  parse_connection expand y (IStr <$> names) st = (st, Raise NoCardinalityRevealed).
Proof.
  intros Hs Halt. split.
  { clear. induction names as [|x names IH]; [done|]. exact IH. }
  apply parse_connection_invalid.
  unfold check_connection. unfold start_role in Hs.
  destruct (first_item (IStr <$> names)) as [x|]; [|done]. cbn in Hs |- *.
  rewrite Hs. cbn -[check_items].
  rewrite check_items_scalars; [done|]. by rewrite flip_flip.
Qed.

(** C5.  In a set whose role inference succeeds, the first list or dict
    item fixes the count (the length of the list, or of the expanded pin
    sequence).  Let the items [pre] have no defect of their own
    (designators in the section expected at their position, dicts of one
    key whose pins expand) and let [n] be the contribution of the first
    list or dict item among them: every later list or dict item that has
    no such defect either and contributes another count makes the set fail
    with the length mismatch, whether or not an item in between differed
    already; the state is left as it was.  And whenever the check of a
    set succeeds, its count is the contribution of the first list or dict
    item. *)
Theorem count_fixed_by_first_revealing_item y pre item post s n m st :
  start_role y (pre ++ item :: post) = Ok s →
  items_pass expand y s pre →
  revealing_item_ok expand y (section_at s (length pre)) item →
  first_contribution expand pre = Some n →
  contribution expand item = Some m →
  m ≠ n →
  parse_connection expand y (pre ++ item :: post) st = (st, Raise CardinalityMismatch) ∧
  (∀ connection k,
     check_connection expand y connection = Ok k →
     first_contribution expand connection = Some k).
Proof.
  intros Hs Hpre Hok Hn Hm Hne. split.
  2: { intros connection k Hk. by apply check_connection_Ok in Hk as (_ & _ & ?). }
  apply parse_connection_invalid. unfold check_connection.
  unfold start_role in Hs.
  destruct (first_item (pre ++ item :: post)) as [x|]; [|done]. cbn in Hs |- *.
  rewrite Hs. cbn -[check_items].
  rewrite check_items_app.
  rewrite <- (flip_flip s) in Hpre.
  destruct (check_items_passing expand y (flip s) None pre Hpre) as [ -> | -> ];
    [done|].
  rewrite Hn. cbn -[check_items].
  rewrite (check_items_mismatch expand y _ n item m); auto.
  replace (flip (section_at (flip s) (length pre))) with (section_at s (length pre));
    [done|].
  rewrite <- section_at_S. unfold section_at. cbn. by rewrite flip_flip.
Qed.

(** C3.  The whole check of a set (role of every item and subitem, one
    key per dict, equal counts, a count revealed) runs before anything
    else: when it raises, the set ends with that exception in the state it
    started from, so no link was emitted for it. *)
Theorem no_link_unless_checked y connection e st :
  check_connection expand y connection = Raise e →
  parse_connection expand y connection st = (st, Raise e) ∧
  h_links (harness (parse_connection expand y connection st).1) = h_links (harness st).
Proof.
  intros H. rewrite (parse_connection_invalid expand y connection e st H). done.
Qed.

End Claims.

Section EmissionClaims.

Variable expand : YamlValue → result (list YamlScalar).

(** C8.  For a set that is processed to the end, the links emitted for it
    number (slots whose first entry is a cable) times (the count of the
    set): every slot has as many entries as the count, a cable slot emits
    one link per entry, and any other slot emits none. *)
Theorem links_per_cable_slot y connection st st' n cl :
  parse_connection expand y connection st = (st', Ok (n, cl)) →
  first_contribution expand connection = Some n ∧
  rectangular n cl ∧
  h_cables (harness st') = h_cables (harness st) ∧
  ∃ links,
    h_links (harness st') = h_links (harness st) ++ links ∧
    links = concat (imap (slot_links (h_cables (harness st)) cl) cl) ∧
    length links = length (List.filter (cable_slot (h_cables (harness st))) cl) * n ∧
    (∀ i item, cable_slot (h_cables (harness st)) item = false →
               slot_links (h_cables (harness st)) cl i item = []) ∧
    (∀ i item, cable_slot (h_cables (harness st)) item = true →
               cl !! i = Some item →
               length (slot_links (h_cables (harness st)) cl i item) = n).
Proof.
  intros H.
  apply parse_connection_Ok in H as (Hcheck & Hn & Hrect & Hlen & st1 & _ & Hg & ->).
  apply check_connection_Ok in Hcheck as (_ & _ & Hfirst).
  destruct Hg as (_ & _ & Hcables & Hlinks). cbn.
  repeat split; try done.
  exists (set_links (h_cables (harness st)) cl). rewrite Hcables, Hlinks.
  repeat split; try done.
  - by apply set_links_length.
  - intros i item Hno. unfold slot_links. by rewrite Hno.
  - intros i item Hyes Hitem. unfold slot_links. rewrite Hyes, length_imap.
    eapply (proj1 (Forall_lookup _ _) Hrect); eauto.
Qed.

(** C9.  For a set that is processed to the end, the links emitted are
    those of the cable slots, slot by slot and entry by entry.  The link
    of entry [j] of slot [i] goes via that entry; its [from] end is [None]
    when the slot is the first one and entry [j] of slot [i-1] otherwise;
    its [to] end is [None] when the slot is the last one and entry [j] of
    slot [i+1] otherwise. *)
Theorem boundary_links_have_no_end y connection st st' n cl :
  parse_connection expand y connection st = (st', Ok (n, cl)) →
  h_links (harness st') =
    h_links (harness st) ++ set_links (h_cables (harness st)) cl ∧
  ∀ i item j con,
    cl !! i = Some item → item !! j = Some con →
    cable_slot (h_cables (harness st)) item = true →
    slot_links (h_cables (harness st)) cl i item !! j = Some (link cl i j con) ∧
    via (link cl i j con) = con ∧
    (i = 0 → from_ (link cl i j con) = None) ∧
    (i = length cl - 1 → to_ (link cl i j con) = None) ∧
    (i ≠ 0 → ∃ p, at_ cl (i - 1) j = Ok p ∧ from_ (link cl i j con) = Some p) ∧
    (i ≠ length cl - 1 →
       ∃ p, at_ cl (i + 1) j = Ok p ∧ to_ (link cl i j con) = Some p).
Proof.
  intros H.
  apply parse_connection_Ok in H as (_ & Hn & Hrect & Hlen & st1 & _ & Hg & ->).
  destruct Hg as (_ & _ & Hcables & Hlinks). cbn.
  split; [by rewrite Hcables, Hlinks|].
  intros i item j con Hitem Hcon Hcable.
  assert (i < length cl) as Hi by by eapply lookup_lt_Some.
  assert (length item = n) as Hitemlen.
  { eapply (proj1 (Forall_lookup _ _) Hrect); eauto. }
  assert (j < n) as Hj.
  { rewrite <- Hitemlen. by eapply lookup_lt_Some. }
  repeat split.
  - unfold slot_links. rewrite Hcable, list_lookup_imap, Hcon. done.
  - intros ->. done.
  - intros Hlast. unfold link. cbn. by rewrite decide_True.
  - intros Hi0. unfold link. cbn. rewrite decide_False by done.
    destruct (at_rectangular n cl (i - 1) j) as (p & Hp & ->); auto; [lia|].
    by exists p.
  - intros Hlast. unfold link. cbn. rewrite decide_False by done.
    destruct (at_rectangular n cl (i + 1) j) as (p & Hp & ->); auto; [lia|].
    by exists p.
Qed.

(** C7.  [autogenerated_ids] starts empty before the first set and is
    threaded through all of them.  In a document processed to the end, the
    uses of autogenerate connectors (a string standing for one use per
    position, a list for one use per element) are numbered as a single
    sequence: the use at position [i] of template [t] is registered, with
    the attributes of [t], under [_t_k] where [k] is one more than the
    number of earlier uses of [t] in the document; the final count of [t]
    is the number of its uses; and no two generated names are equal. *)
Theorem autogenerated_ids_shared_across_sets y st' :
  parse expand y = Ok (st', Ok ()) →
  ∃ h0, add_declared y = Ok h0 ∧
    h_connectors (harness st') =
      h_connectors h0 ++
      instances y (number_from ∅ (document_occurrences expand y (connections y))) ∧
    (instances y (number_from ∅ (document_occurrences expand y (connections y)))).*1 =
      instance_name <$> number_from ∅ (document_occurrences expand y (connections y)) ∧
    (∀ i t, document_occurrences expand y (connections y) !! i = Some t →
       number_from ∅ (document_occurrences expand y (connections y)) !! i =
         Some (t, uses t (take i (document_occurrences expand y (connections y))) + 1)) ∧
    (∀ t, autogenerated_ids st' !! t =
       if decide (uses t (document_occurrences expand y (connections y)) = 0)
       then None
       else Some (uses t (document_occurrences expand y (connections y)))) ∧
    NoDup (instance_name <$>
             number_from ∅ (document_occurrences expand y (connections y))).
Proof.
  unfold parse. destruct (add_declared y) as [h0|]; [|done]. cbn.
  intros [= H]. exists h0. split; [done|].
  apply parse_connections_Ok in H as (Hids & Hconn & _). cbn in Hids, Hconn.
  split; [done|]. split; [|split; [|split]].
  - apply instances_names. rewrite number_from_names.
    apply document_occurrences_templates.
  - intros i t Hi. rewrite (number_from_lookup _ _ _ _ Hi).
    by rewrite lookup_empty.
  - intros t. rewrite Hids, bump_lookup, lookup_empty. done.
  - apply instance_names_NoDup.
Qed.

(** C1, as amended.  In the document with connectors [X] and [Y] and
    cable [W], where ["1-2"] expands to the pins 1 and 2: the set
    [[[X,X], W, {Y: "1-2"}]] passes the check with count 2; written with
    the wires of the cable, [[[X,X], {W: "1-2"}, {Y: "1-2"}]], it is
    processed to the end with count 2 and emits exactly the two links
    (X,1)-(W,1)-(Y,1) and (X,1)-(W,2)-(Y,2), the two X entries being the
    two list elements, each at pin 1. *)
Theorem scenario_X_W_Y :
  expand pins12 = Ok [YInt 1; YInt 2] →
  check_connection expand (doc_XYW []) row_XWY = Ok 2 ∧
  add_declared (doc_XYW [row_XWY_wires]) = Ok (harness st_XYW) ∧
  parse_connection expand (doc_XYW []) row_XWY_wires st_XYW =
    (with_harness st_XYW (with_links (harness st_XYW) [link_XWY_1; link_XWY_2]),
     Ok (2, slots_XWY)) ∧
  parse expand (doc_XYW [row_XWY_wires]) =
    Ok (with_harness st_XYW (with_links (harness st_XYW) [link_XWY_1; link_XWY_2]),
        Ok ()).
Proof.
  intros H. unfold pins12 in H.
  assert (check_connection expand (doc_XYW []) row_XWY = Ok 2) as H1.
  { vm_compute. rewrite H. vm_compute. reflexivity. }
  assert (parse_connection expand (doc_XYW []) row_XWY_wires st_XYW =
    (with_harness st_XYW (with_links (harness st_XYW) [link_XWY_1; link_XWY_2]),
     Ok (2, slots_XWY))) as H2.
  { vm_compute. rewrite H. vm_compute. reflexivity. }
  repeat split; try done.
  vm_compute. rewrite H. vm_compute. reflexivity.
Qed.

End EmissionClaims.

(** * The claims on concrete documents *)

(** The scenario of C1 as written, with a bare [W]: the check passes, then
    [yaml_data['connectors']['W']] raises, and no link is emitted. *)
Lemma scenario_X_W_Y_bare_cable :
  expand_ranges pins12 = Ok [YInt 1; YInt 2] ∧
  add_declared (doc_XYW [row_XWY]) = Ok (harness st_XYW) ∧
  parse_connection expand_ranges (doc_XYW [row_XWY]) row_XWY st_XYW =
    (st_XYW, Raise (KeyError "W")) ∧
  ¬ is_Ok (parse_connection expand_ranges (doc_XYW [row_XWY]) row_XWY st_XYW).2 ∧
  h_links (harness (parse_connection expand_ranges (doc_XYW [row_XWY]) row_XWY st_XYW).1)
    = [].
Proof.
  assert (parse_connection expand_ranges (doc_XYW [row_XWY]) row_XWY st_XYW =
            (st_XYW, Raise (KeyError "W"))) as H by (vm_compute; reflexivity).
  rewrite H. repeat split; try reflexivity. intros [].
Qed.

Lemma scenario_X_W_Y_witness :
  expand_ranges pins12 = Ok [YInt 1; YInt 2] ∧
  parse expand_ranges (doc_XYW [row_XWY_wires]) =
    Ok (with_harness st_XYW (with_links (harness st_XYW) [link_XWY_1; link_XWY_2]),
        Ok ()).
Proof.
  split; [reflexivity|].
  apply (scenario_X_W_Y expand_ranges). reflexivity.
Defined.

(** The sets of C2 on a concrete document: both are rejected. *)
Lemma cable_connector_pair_rejected :
  is_Some (cables (doc_XYW []) !! "W") ∧
  is_Some (connectors (doc_XYW []) !! "X") ∧
  parse_connection expand_ranges (doc_XYW []) [IStr "W"; IStr "X"] st_XYW =
    (st_XYW, Raise NoCardinalityRevealed) ∧
  parse_connection expand_ranges (doc_XYW []) [IStr "X"; IStr "W"] st_XYW =
    (st_XYW, Raise NoCardinalityRevealed) ∧
  ¬ is_Ok (parse_connection expand_ranges (doc_XYW []) [IStr "W"; IStr "X"] st_XYW).2 ∧
  ¬ is_Ok (parse_connection expand_ranges (doc_XYW []) [IStr "X"; IStr "W"] st_XYW).2.
Proof.
  assert (parse_connection expand_ranges (doc_XYW []) [IStr "W"; IStr "X"] st_XYW =
            (st_XYW, Raise NoCardinalityRevealed)) as H1 by (vm_compute; reflexivity).
  assert (parse_connection expand_ranges (doc_XYW []) [IStr "X"; IStr "W"] st_XYW =
            (st_XYW, Raise NoCardinalityRevealed)) as H2 by (vm_compute; reflexivity).
  rewrite H1, H2.
  split; [by_evaluation|]. split; [by_evaluation|].
  repeat split; intros [].
Qed.

Lemma alternation_inferred_from_first_item_witness :
  is_Some (cables (doc_XYW []) !! "W") ∧
  connectors (doc_XYW []) !! "W" = None ∧
  is_Some (connectors (doc_XYW []) !! "X") ∧
  start_role (doc_XYW []) [IStr "W"; IStr "X"] = Ok Cables ∧
  start_role (doc_XYW []) [IStr "X"; IStr "W"] = Ok Connectors.
Proof.
  assert (is_Some (cables (doc_XYW []) !! "W")) as H1 by by_evaluation.
  assert (connectors (doc_XYW []) !! "W" = None) as H2 by by_evaluation.
  assert (is_Some (connectors (doc_XYW []) !! "X")) as H3 by by_evaluation.
  destruct (alternation_inferred_from_first_item expand_ranges (doc_XYW [])
              "W" "X" st_XYW H1 H2 H3) as (R1 & R2 & _).
  split; [exact H1|]. split; [exact H2|]. split; [exact H3|].
  split; [exact R1|exact R2].
Defined.

Lemma no_link_unless_checked_witness :
  check_connection expand_ranges (doc_XYW []) [IStr "X"; IStr "Y"] =
    Raise (RoleAlternationViolation "Y" Cables) ∧
  parse_connection expand_ranges (doc_XYW []) [IStr "X"; IStr "Y"] st_XYW =
    (st_XYW, Raise (RoleAlternationViolation "Y" Cables)).
Proof.
  assert (check_connection expand_ranges (doc_XYW []) [IStr "X"; IStr "Y"] =
            Raise (RoleAlternationViolation "Y" Cables)) as H by by_evaluation.
  split; [exact H|].
  exact (proj1 (no_link_unless_checked expand_ranges (doc_XYW []) _ _ st_XYW H)).
Defined.

Lemma three_connectors_rejected_witness :
  is_Some (connectors (doc_XYW []) !! "X") ∧
  is_Some (connectors (doc_XYW []) !! "Y") ∧
  cables (doc_XYW []) !! "Y" = None ∧
  parse_connection expand_ranges (doc_XYW []) [IStr "X"; IStr "Y"; IStr "X"] st_XYW =
    (st_XYW, Raise (RoleAlternationViolation "Y" Cables)).
Proof.
  assert (is_Some (connectors (doc_XYW []) !! "X")) as HX by by_evaluation.
  assert (is_Some (connectors (doc_XYW []) !! "Y")) as HY by by_evaluation.
  assert (cables (doc_XYW []) !! "Y" = None) as HN by by_evaluation.
  split; [exact HX|]. split; [exact HY|]. split; [exact HN|].
  exact (three_connectors_rejected expand_ranges (doc_XYW []) "X" "Y" "X" st_XYW
           HX HY HX HN).
Defined.

(** The role check of an item comes before the length comparison: a
    list that sits where a cable is expected and names connectors is
    reported for its role, whatever its length. *)
Lemma mixed_counts_role_error_first :
  contribution expand_ranges (IDict [("X", pins12)]) = Some 2 ∧
  contribution expand_ranges (IList ["Y"; "Y"; "Y"]) = Some 3 ∧
  parse_connection expand_ranges (doc_XYW [])
    [IDict [("X", pins12)]; IList ["Y"; "Y"; "Y"]] st_XYW =
    (st_XYW, Raise (RoleAlternationViolation "Y" Cables)) ∧
  (parse_connection expand_ranges (doc_XYW [])
     [IDict [("X", pins12)]; IList ["Y"; "Y"; "Y"]] st_XYW).2 ≠
    Raise CardinalityMismatch.
Proof.
  assert (parse_connection expand_ranges (doc_XYW [])
            [IDict [("X", pins12)]; IList ["Y"; "Y"; "Y"]] st_XYW =
          (st_XYW, Raise (RoleAlternationViolation "Y" Cables))) as H
    by (vm_compute; reflexivity).
  rewrite H. repeat split; try reflexivity. intros [=].
Qed.

(** A 2-pin dict then a 3-element list, and a 3-element list then, after
    a string, a 2-pin dict. *)
Lemma count_fixed_by_first_revealing_item_witness :
  parse_connection expand_ranges (doc_XYW [])
    ([IDict [("X", pins12)]] ++ IList ["W"; "W"; "W"] :: []) st_XYW =
    (st_XYW, Raise CardinalityMismatch) ∧
  parse_connection expand_ranges (doc_XYW [])
    ([IList ["X"; "Y"; "X"]; IStr "W"] ++ IDict [("Y", pins12)] :: [IStr "W"]) st_XYW =
    (st_XYW, Raise CardinalityMismatch).
Proof.
  split.
  - refine (proj1 (count_fixed_by_first_revealing_item expand_ranges (doc_XYW [])
              [IDict [("X", pins12)]] (IList ["W"; "W"; "W"]) [] Connectors 2 3 st_XYW
              _ _ _ _ _ _)).
    + by_evaluation.
    + cbn [items_pass item_passes revealing_item_ok].
      split; [|exact I]. split; [by_evaluation|]. vm_compute. exact I.
    + cbn [revealing_item_ok]. repeat constructor; by_evaluation.
    + reflexivity.
    + reflexivity.
    + lia.
  - refine (proj1 (count_fixed_by_first_revealing_item expand_ranges (doc_XYW [])
              [IList ["X"; "Y"; "X"]; IStr "W"] (IDict [("Y", pins12)]) [IStr "W"]
              Connectors 3 2 st_XYW _ _ _ _ _ _)).
    + by_evaluation.
    + cbn [items_pass item_passes revealing_item_ok flip].
      split; [repeat constructor; by_evaluation|]. split; [by_evaluation|exact I].
    + cbn [revealing_item_ok]. split; [by_evaluation|]. vm_compute. exact I.
    + reflexivity.
    + reflexivity.
    + lia.
Defined.

Lemma strings_reveal_no_count_witness :
  start_role (doc_XYW []) (IStr <$> ["X"; "W"; "Y"]) = Ok Connectors ∧
  parse_connection expand_ranges (doc_XYW []) (IStr <$> ["X"; "W"; "Y"]) st_XYW =
    (st_XYW, Raise NoCardinalityRevealed).
Proof.
  split; [by_evaluation|].
  refine (proj2 (strings_reveal_no_count expand_ranges (doc_XYW [])
                   ["X"; "W"; "Y"] Connectors st_XYW _ _)).
  - by_evaluation.
  - vm_compute. repeat split; eexists; reflexivity.
Defined.

Lemma connectors_are_tried_first_witness :
  is_Some (connectors doc_both !! "B") ∧
  is_Some (cables doc_both !! "B") ∧
  start_role doc_both [IList ["B"; "A"]; IStr "W"] = Ok Connectors.
Proof.
  assert (is_Some (connectors doc_both !! "B")) as H1 by by_evaluation.
  assert (is_Some (cables doc_both !! "B")) as H2 by by_evaluation.
  split; [exact H1|]. split; [exact H2|].
  exact (proj1 (connectors_are_tried_first expand_ranges doc_both
                  [IList ["B"; "A"]; IStr "W"] "B" eq_refl H1 H2)).
Defined.

Lemma links_per_cable_slot_witness :
  parse_connection expand_ranges (doc_XYW []) row_WXW st_XYW =
    (with_harness st_XYW
       (with_links (harness st_XYW) (set_links (h_cables (harness st_XYW)) slots_WXW)),
     Ok (2, slots_WXW)) ∧
  length (set_links (h_cables (harness st_XYW)) slots_WXW) = 2 * 2.
Proof.
  assert (parse_connection expand_ranges (doc_XYW []) row_WXW st_XYW =
    (with_harness st_XYW
       (with_links (harness st_XYW) (set_links (h_cables (harness st_XYW)) slots_WXW)),
     Ok (2, slots_WXW))) as H by by_evaluation.
  split; [exact H|].
  destruct (links_per_cable_slot expand_ranges (doc_XYW []) row_WXW st_XYW _ 2 slots_WXW H)
    as (_ & _ & _ & links & _ & -> & Hlen & _).
  exact Hlen.
Defined.

Lemma boundary_links_have_no_end_witness :
  from_ (link slots_WXW 0 1 ("W", YInt 2)) = None ∧
  to_ (link slots_WXW 2 1 ("W", YInt 2)) = None.
Proof.
  assert (parse_connection expand_ranges (doc_XYW []) row_WXW st_XYW =
    (with_harness st_XYW
       (with_links (harness st_XYW) (set_links (h_cables (harness st_XYW)) slots_WXW)),
     Ok (2, slots_WXW))) as H by by_evaluation.
  destruct (boundary_links_have_no_end expand_ranges (doc_XYW []) row_WXW st_XYW _ 2
              slots_WXW H) as [_ Hat].
  split.
  - refine (proj1 (proj2 (proj2 (Hat 0 _ 1 ("W", YInt 2) eq_refl eq_refl eq_refl)))
              eq_refl).
  - refine (proj1 (proj2 (proj2 (proj2
              (Hat 2 _ 1 ("W", YInt 2) eq_refl eq_refl eq_refl)))) eq_refl).
Defined.

Lemma autogenerated_ids_shared_across_sets_witness :
  ∃ st', parse expand_ranges doc_F = Ok (st', Ok ()) ∧
    (h_connectors (harness st')).*1 = ["X"; "_F_1"; "_F_2"; "_F_3"; "_F_4"] ∧
    NoDup (instance_name <$>
             number_from ∅ (document_occurrences expand_ranges doc_F (connections doc_F))).
Proof.
  eexists. split; [vm_compute; reflexivity|]. split; [reflexivity|].
  refine (let '(ex_intro _ h0 (conj _ (conj _ (conj _ (conj _ (conj _ H))))))
            := autogenerated_ids_shared_across_sets expand_ranges doc_F _ _ in H).
  vm_compute. reflexivity.
Defined.

(** * Further properties of the connection loop *)

(** ** The state only grows *)

Lemma extends_refl st : extends st st.
Proof.
  repeat split; try (exists []; by rewrite app_nil_r); done.
Qed.

Lemma extends_trans st st' st'' : extends st st' → extends st' st'' → extends st st''.
Proof.
  intros ([c1 Hc1] & Hb1 & [l1 Hl1] & Hi1) ([c2 Hc2] & Hb2 & [l2 Hl2] & Hi2).
  repeat split.
  - exists (c1 ++ c2). by rewrite Hc2, Hc1, app_assoc.
  - congruence.
  - exists (l1 ++ l2). by rewrite Hl2, Hl1, app_assoc.
  - intros t. specialize (Hi1 t). specialize (Hi2 t). lia.
Qed.

Lemma insert_count_le (ids : gmap string nat) x t :
  default 0 (ids !! t) ≤ default 0 (<[x := default 0 (ids !! x) + 1]> ids !! t).
Proof.
  destruct (decide (x = t)) as [->|Hne].
  - rewrite lookup_insert_eq. cbn. lia.
  - by rewrite lookup_insert_ne.
Qed.

Lemma single_pin_extends y x st : extends st (single_pin y x st).1.
Proof.
  unfold single_pin, add_connector.
  destruct (connectors y !! x) as [a|]; [|apply extends_refl].
  destruct (autogenerate a); [|apply extends_refl].
  destruct (registered _ _); cbn.
  - repeat split; try (exists []; by rewrite app_nil_r); try done.
    apply insert_count_le.
  - repeat split; try done.
    + by eexists.
    + exists []. by rewrite app_nil_r.
    + apply insert_count_le.
Qed.

Lemma single_pins_extends y l st : extends st (single_pins y l st).1.
Proof.
  revert st. induction l as [|x l IH]; intros st; [apply extends_refl|].
  cbn. unfold mbind, M_bind.
  pose proof (single_pin_extends y x st) as H1.
  destruct (single_pin y x st) as [st1 [p|e]]; [|done]. cbn in H1.
  pose proof (IH st1) as H2.
  destruct (single_pins y l st1) as [st2 [ps|e]]; cbn in *;
    by eapply extends_trans.
Qed.

Lemma with_links_extends st ls :
  extends st (with_harness st (with_links (harness st) ls)).
Proof.
  repeat split; try done; cbn.
  - exists []. by rewrite app_nil_r.
  - by eexists.
Qed.

Lemma connect_pins_appends (cl : list Slot) i j rest h :
  ∃ ls, (connect_pins cl i j rest h).1 = with_links h ls.
Proof.
  revert j h. induction rest as [|con rest IH]; intros j h; cbn.
  { exists []. by rewrite with_links_nil. }
  destruct (from_end cl i j) as [f|]; [|exists []; by rewrite with_links_nil].
  destruct (to_end cl i j) as [t|]; [|exists []; by rewrite with_links_nil].
  destruct (IH (S j) (connect f con t h)) as [ls ->].
  rewrite connect_with_links, with_links_app. by eexists.
Qed.

Lemma connect_slots_appends (cl : list Slot) i rest h :
  ∃ ls, (connect_slots cl i rest h).1 = with_links h ls.
Proof.
  revert i h. induction rest as [|item rest IH]; intros i h; cbn.
  { exists []. by rewrite with_links_nil. }
  destruct item as [|[id pin] item]; [exists []; by rewrite with_links_nil|].
  destruct (registered id (h_cables h)); [|apply IH].
  destruct (connect_pins_appends cl i 0 ((id, pin) :: item) h) as [ls Hls].
  destruct (connect_pins cl i 0 ((id, pin) :: item) h) as [h' [[]|e]];
    cbn in Hls; subst h'.
  - destruct (IH (S i) (with_links h ls)) as [ls' ->].
    rewrite with_links_app. by eexists.
  - by eexists.
Qed.

Section Growth.

Variable expand : YamlValue → result (list YamlScalar).

Lemma populate_item_extends y n item st :
  extends st (populate_item expand y n item st).1.
Proof.
  destruct item as [x|l|d]; cbn.
  - apply single_pins_extends.
  - apply single_pins_extends.
  - destruct d as [|[k spec] ?]; [apply extends_refl|].
    destruct (expand spec); apply extends_refl.
Qed.

Lemma populate_extends y n connection st :
  extends st (populate expand y n connection st).1.
Proof.
  revert st. induction connection as [|item rest IH]; intros st;
    [apply extends_refl|].
  cbn. unfold mbind, M_bind.
  pose proof (populate_item_extends y n item st) as H1.
  destruct (populate_item expand y n item st) as [st1 [sublist|e]]; [|done].
  cbn in H1. pose proof (IH st1) as H2.
  destruct (populate expand y n rest st1) as [st2 [cl|e]]; cbn in *;
    by eapply extends_trans.
Qed.

Lemma connect_all_extends cl st : extends st (connect_all cl st).1.
Proof.
  unfold connect_all.
  destruct (connect_slots_appends cl 0 cl (harness st)) as [ls Hls].
  destruct (connect_slots cl 0 cl (harness st)) as [h r]. cbn in Hls. subst h.
  apply with_links_extends.
Qed.

Lemma parse_connection_extends y connection st :
  extends st (parse_connection expand y connection st).1.
Proof.
  unfold parse_connection.
  destruct (check_connection expand y connection) as [n|]; [|apply extends_refl].
  unfold mbind, M_bind.
  pose proof (populate_extends y n connection st) as H1.
  destruct (populate expand y n connection st) as [st1 [cl|e]]; [|done].
  cbn in H1. pose proof (connect_all_extends cl st1) as H2.
  destruct (connect_all cl st1) as [st2 [[]|e]]; cbn in *;
    by eapply extends_trans.
Qed.

Lemma parse_connections_extends y conns st :
  extends st (parse_connections expand y conns st).1.
Proof.
  revert st. induction conns as [|connection conns IH]; intros st;
    [apply extends_refl|].
  cbn. unfold mbind, M_bind.
  pose proof (parse_connection_extends y connection st) as H1.
  destruct (parse_connection expand y connection st) as [st1 [r|e]]; [|done].
  cbn in H1. eapply extends_trans; [exact H1|apply IH].
Qed.

(** X1.  Whatever the outcome of the connection loop, exceptions
    included, it only adds to the state: the connectors registered and
    the links emitted before stay where they are, new ones come after
    them, the cables of the harness are untouched, and no count of
    [autogenerated_ids] decreases. *)
Theorem connection_loop_only_adds y conns st :
  extends st (parse_connections expand y conns st).1.
Proof. apply parse_connections_extends. Qed.

(** The loop over [conns ++ conns'] is the loop over [conns] followed, if
    that raised nothing, by the loop over [conns']. *)
Lemma parse_connections_app y conns conns' st :
  parse_connections expand y (conns ++ conns') st =
  match parse_connections expand y conns st with
  | (st1, Ok _) => parse_connections expand y conns' st1
  | (st1, Raise e) => (st1, Raise e)
  end.
Proof.
  revert st. induction conns as [|connection conns IH]; intros st; [done|].
  cbn. unfold mbind, M_bind.
  destruct (parse_connection expand y connection st) as [st1 [r|e]]; [|done].
  apply IH.
Qed.

(** X3.  A connection set that ends with an exception, of whatever kind
    and raised in whatever phase, has emitted no link and has left the
    cables of the harness alone. *)
Theorem failed_set_emits_nothing y connection st st' e :
  parse_connection expand y connection st = (st', Raise e) →
  h_links (harness st') = h_links (harness st) ∧
  h_cables (harness st') = h_cables (harness st).
Proof.
  intros H. apply parse_connection_Raise in H as [Hb Hl]. done.
Qed.

End Growth.

(** ** What the check accepts *)

Section Acceptance.

Variable expand : YamlValue → result (list YamlScalar).

Lemma check_in_inv y s x : check_in y s x = Ok () → is_Some (section y s !! x).
Proof.
  unfold check_in. destruct (is_in y s x) eqn:H; [|done].
  intros _. by apply is_in_true.
Qed.

Lemma check_subitems_inv y s l :
  check_subitems y s l = Ok () → Forall (λ x, is_Some (section y s !! x)) l.
Proof.
  induction l as [|x l IH]; cbn; [constructor|].
  destruct (check_in y s x) as [[]|] eqn:Hx; [|done]. cbn.
  intros H. constructor; [by apply check_in_inv|by apply IH].
Qed.

Lemma check_items_accepted y e c connection n :
  check_items expand y e c connection = Ok (Some n) →
  accepted expand y (flip e) n connection.
Proof.
  revert e c. induction connection as [|item rest IH]; intros e c; cbn; [done|].
  destruct item as [x|l|d].
  - destruct (check_in y (flip e) x) as [[]|] eqn:Hx; [|done]. cbn.
    intros H. split; [by apply check_in_inv|by eapply IH].
  - destruct (check_subitems y (flip e) l) as [[]|] eqn:Hl; [|done]. cbn.
    destruct (check_count c (length l)); [|done]. cbn.
    intros H. pose proof (check_items_keeps _ _ _ _ _ _ H) as [= ->].
    split; [split; [by apply check_subitems_inv|done]|by eapply IH].
  - destruct d as [|[k spec] [|? ?]]; try done.
    destruct (expand spec) as [pins|] eqn:E; [|done]. cbn.
    destruct (check_in y (flip e) k) as [[]|] eqn:Hk; [|done]. cbn.
    destruct (check_count c (length pins)); [|done]. cbn.
    intros H. pose proof (check_items_keeps _ _ _ _ _ _ H) as [= ->].
    split; [split; [by apply check_in_inv|by exists pins]|by eapply IH].
Qed.

Lemma check_count_same c n : c = None ∨ c = Some n → check_count c n = Ok ().
Proof. intros [->| ->]; cbn; [done|]. by rewrite decide_False by (intros ?; done). Qed.

Lemma check_items_complete y e c connection n :
  accepted expand y (flip e) n connection →
  c = None ∨ c = Some n →
  check_items expand y e c connection =
    Ok (match first_contribution expand connection with
        | Some _ => Some n
        | None => c
        end).
Proof.
  revert e c. induction connection as [|item rest IH]; intros e c; cbn; [done|].
  intros [Hitem Hrest] Hc. destruct item as [x|l|d]; cbn in Hitem.
  - rewrite check_in_Ok by done. cbn. by apply IH.
  - destruct Hitem as [Hl Hlen]. rewrite check_subitems_Ok by done. cbn.
    rewrite Hlen, check_count_same by done. cbn.
    rewrite (IH _ (Some n)) by auto. by destruct (first_contribution expand rest).
  - destruct d as [|[k spec] [|? ?]]; try done.
    destruct Hitem as (Hk & pins & Hpins & Hlen). rewrite Hpins. cbn.
    rewrite check_in_Ok by done. cbn.
    rewrite Hlen, check_count_same by done. cbn.
    rewrite (IH _ (Some n)) by auto. rewrite Hpins.
    by destruct (first_contribution expand rest).
Qed.

Lemma check_connection_accepted y connection n :
  check_connection expand y connection = Ok n →
  ∃ s, start_role y connection = Ok s ∧
       accepted expand y s n connection ∧
       first_contribution expand connection = Some n.
Proof.
  unfold check_connection, start_role.
  intros H. destruct (first_item connection) as [x|]; [|done]. cbn in *.
  destruct (first_section y x) as [s|]; [|done]. cbn in H.
  destruct (check_items expand y (flip s) None connection) as [c|] eqn:Hc;
    [|done].
  cbn in H. destruct c as [m|]; [|done]. injection H as ->.
  exists s. split; [done|]. split.
  - apply check_items_accepted in Hc. by rewrite flip_flip in Hc.
  - symmetry. by eapply check_items_first.
Qed.

(** X4.  The check of a connection set succeeds with count [n] exactly
    when the role of the first designator can be inferred, every item is
    accepted at its position (designators in the section expected there,
    sections alternating from the inferred one; lists of length [n];
    dicts of one key whose pins expand to [n] pins), and some list or dict
    item reveals the count. *)
Theorem check_accepts_exactly y connection n :
  check_connection expand y connection = Ok n ↔
  ∃ s, start_role y connection = Ok s ∧
       accepted expand y s n connection ∧
       first_contribution expand connection = Some n.
Proof.
  split; [apply check_connection_accepted|].
  unfold check_connection, start_role.
  - intros (s & Hs & Hacc & Hfirst).
    destruct (first_item connection) as [x|]; [|done]. cbn in *.
    rewrite Hs. cbn.
    rewrite (check_items_complete y (flip s) None connection n);
      [|by rewrite flip_flip|by left].
    by rewrite Hfirst.
Qed.

Lemma check_items_several_keys y e c d rest :
  length d ≠ 1 →
  check_items expand y e c (IDict d :: rest) = Raise MultiKeyMapping.
Proof. by destruct d as [|[k spec] [|? ?]]. Qed.

(** X5.  In a set whose starting role has been inferred from its first
    designator, and once the items before it have passed, a dict item
    that does not have exactly one key makes the set fail with the
    one-key exception, whether or not its keys are in the expected
    section, whatever its values expand to and whatever follows; the state
    is left as it was.  (For a dict that is the first item, the role is
    inferred from its first key, which is then declared in one of the
    sections.) *)
Theorem dict_needs_one_key y pre d post s st :
  start_role y (pre ++ IDict d :: post) = Ok s →
  is_Ok (check_items expand y (flip s) None pre) →
  length d ≠ 1 →
  parse_connection expand y (pre ++ IDict d :: post) st = (st, Raise MultiKeyMapping).
Proof.
  intros Hs Hpre Hd. apply parse_connection_invalid.
  unfold check_connection. unfold start_role in Hs.
  destruct (first_item (pre ++ IDict d :: post)) as [x|]; [|done].
  cbn in Hs |- *. rewrite Hs. cbn -[check_items].
  rewrite check_items_app.
  destruct (check_items expand y (flip s) None pre) as [c|]; [|done].
  cbn -[check_items]. by rewrite check_items_several_keys.
Qed.

(** X6.  In a set whose starting role has been inferred from its first
    designator, and once the items before it have passed, the pins of a
    one-key dict are expanded before its designator is checked against
    the expected section: an exception raised by [expand] ends the set
    with that exception, whether or not the designator is in that
    section; the state is left as it was.  (For a dict that is the first
    item, the role is inferred from its key, which is then declared in
    one of the sections.) *)
Theorem expand_exception_comes_first y pre k spec post s e st :
  start_role y (pre ++ IDict [(k, spec)] :: post) = Ok s →
  is_Ok (check_items expand y (flip s) None pre) →
  expand spec = Raise e →
  parse_connection expand y (pre ++ IDict [(k, spec)] :: post) st = (st, Raise e).
Proof.
  intros Hs Hpre He. apply parse_connection_invalid.
  unfold check_connection. unfold start_role in Hs.
  destruct (first_item (pre ++ IDict [(k, spec)] :: post)) as [x|]; [|done].
  cbn in Hs |- *. rewrite Hs. cbn -[check_items].
  rewrite check_items_app.
  destruct (check_items expand y (flip s) None pre) as [c|]; [|done].
  cbn. by rewrite He.
Qed.

End Acceptance.

(** ** What the slots hold *)

Lemma single_pin_Ok_inv y x st st' p :
  single_pin y x st = (st', Ok p) →
  is_Some (connectors y !! x) ∧ p.2 = YInt 1 ∧
  (p.1 = x ∨ ∃ k, p.1 = new_id x k).
Proof.
  unfold single_pin.
  destruct (connectors y !! x) as [a|]; [|done].
  destruct (autogenerate a).
  - destruct (add_connector _ _ _); [|done]. intros [= _ <-]. cbn. eauto.
  - intros [= _ <-]. cbn. eauto.
Qed.

Lemma single_pins_Ok_declared y l st st' sublist :
  single_pins y l st = (st', Ok sublist) →
  Forall (λ x, is_Some (connectors y !! x)) l.
Proof.
  revert st st' sublist.
  induction l as [|x l IH]; intros st st' sublist; [constructor|].
  cbn [single_pins]. unfold mbind, M_bind.
  destruct (single_pin y x st) as [st1 [p|e]] eqn:Hp; [|done].
  destruct (single_pins y l st1) as [st2 [ps|e]] eqn:Hps; [|done].
  intros _. constructor.
  - by apply single_pin_Ok_inv in Hp as [? _].
  - by eapply IH.
Qed.

Lemma single_pins_head y x l st st' sublist :
  single_pins y (x :: l) st = (st', Ok sublist) →
  ∃ id rest, sublist = (id, YInt 1) :: rest ∧ (id = x ∨ ∃ k, id = new_id x k).
Proof.
  cbn [single_pins]. unfold mbind, M_bind.
  destruct (single_pin y x st) as [st1 [[id pin]|e]] eqn:Hp; [|done].
  destruct (single_pins y l st1) as [st2 [ps|e]]; [|done].
  intros [= _ <-]. apply single_pin_Ok_inv in Hp as (_ & Hpin & Hid).
  cbn in Hpin, Hid. subst pin. by exists id, ps.
Qed.

(** Designators that are declared connectors and no templates are
    entered under their own name, and the state stays as it is. *)
Lemma single_pins_plain y l st :
  Forall (λ x, is_Some (connectors y !! x) ∧ is_template y x = false) l →
  single_pins y l st = (st, Ok ((λ x, (x, YInt 1)) <$> l)).
Proof.
  induction 1 as [|x l [[a Ha] Hx] _ IH]; [done|].
  cbn [single_pins]. unfold mbind, M_bind.
  unfold single_pin at 1. unfold is_template in Hx. rewrite Ha in Hx |- *.
  rewrite Hx, IH. done.
Qed.

Section Slots.

Variable expand : YamlValue → result (list YamlScalar).

Lemma populate_Ok_declared y n connection st st' cl :
  0 < n →
  populate expand y n connection st = (st', Ok cl) →
  Forall (λ x, is_Some (connectors y !! x)) (single_pin_names connection).
Proof.
  intros Hn. revert st st' cl.
  induction connection as [|item rest IH]; intros st st' cl; [constructor|].
  cbn [populate]. unfold mbind, M_bind.
  destruct (populate_item expand y n item st) as [st1 [sublist|e]] eqn:H1; [|done].
  destruct (populate expand y n rest st1) as [st2 [cl'|e]] eqn:H2; [|done].
  intros _. unfold single_pin_names. cbn. apply Forall_app. split; [|by eapply IH].
  destruct item as [x|l|d]; cbn in H1.
  - apply single_pins_Ok_declared in H1.
    destruct n as [|m]; [lia|]. cbn in H1. apply Forall_cons in H1 as [Hx _].
    by constructor.
  - by eapply single_pins_Ok_declared.
  - constructor.
Qed.

Lemma populate_zero y connection st :
  Forall (fits expand 0) connection →
  populate expand y 0 connection st = (st, Ok (replicate (length connection) [])).
Proof.
  induction 1 as [|item rest Hitem _ IH]; [done|].
  cbn [populate]. unfold mbind, M_bind.
  assert (populate_item expand y 0 item st = (st, Ok [])) as ->.
  { destruct item as [x|l|d]; cbn in *.
    - done.
    - by apply nil_length_inv in Hitem as ->.
    - destruct d as [|[k spec] [|? ?]]; try done.
      destruct Hitem as (pins & -> & Hlen).
      by apply nil_length_inv in Hlen as ->. }
  by rewrite IH.
Qed.

Lemma populate_plain y n connection st :
  Forall (fits expand n) connection →
  Forall (λ x, is_Some (connectors y !! x) ∧ is_template y x = false)
    (single_pin_names connection) →
  populate expand y n connection st = (st, Ok (plain_slot expand n <$> connection)).
Proof.
  induction 1 as [|item rest Hitem _ IH]; [done|].
  unfold single_pin_names. cbn. intros [Hnames Hrest]%Forall_app.
  unfold mbind, M_bind.
  assert (populate_item expand y n item st = (st, Ok (plain_slot expand n item)))
    as ->.
  { destruct item as [x|l|d]; cbn in *.
    - apply Forall_cons in Hnames as [Hx _].
      rewrite single_pins_plain, fmap_replicate; [done|].
      by apply Forall_replicate.
    - by rewrite single_pins_plain.
    - destruct d as [|[k spec] [|? ?]]; try done.
      by destruct Hitem as (pins & -> & _). }
  by rewrite IH.
Qed.

(** X7.  A set whose check gives the count 0 (an empty list item, or pins
    that expand to nothing) always ends with an index error: the slots
    are all empty, and the connection loop subscripts the first one.  The
    state is left as it was. *)
Theorem zero_count_raises_IndexError y connection st :
  check_connection expand y connection = Ok 0 →
  parse_connection expand y connection st = (st, Raise IndexError).
Proof.
  intros H. unfold parse_connection. rewrite H.
  apply check_connection_Ok in H as (Hne & Hfits & _).
  unfold mbind, M_bind. rewrite populate_zero by done.
  rewrite connect_all_empty.
  - by rewrite with_harness_id.
  - apply Forall_replicate. done.
  - by destruct connection.
Qed.

(** X8.  In a set that is processed to the end, every string item and
    every element of a list item names a declared connector: a designator
    that is only a cable is accepted by the check where a cable is
    expected, but is then looked up in the connectors, so a cable can be
    given as a dict only. *)
Theorem single_pin_items_are_connectors y connection st st' n cl :
  parse_connection expand y connection st = (st', Ok (n, cl)) →
  Forall (λ x, is_Some (connectors y !! x)) (single_pin_names connection).
Proof.
  intros H.
  apply parse_connection_Ok in H as (_ & Hn & _ & _ & st1 & Hpop & _).
  by eapply populate_Ok_declared.
Qed.

(** X9.  A set processed to the end in which no string and no list
    element names a template leaves [autogenerated_ids] and the
    registered connectors as they were, and its slots are read off the
    items: [n] times [(s, 1)] for a string [s], [(x, 1)] for each element
    [x] of a list, [(id, pin)] for each expanded pin of a dict. *)
Theorem plain_set_slots y connection st st' n cl :
  parse_connection expand y connection st = (st', Ok (n, cl)) →
  Forall (λ x, is_template y x = false) (single_pin_names connection) →
  cl = plain_slot expand n <$> connection ∧
  autogenerated_ids st' = autogenerated_ids st ∧
  h_connectors (harness st') = h_connectors (harness st).
Proof.
  intros H Hplain.
  apply parse_connection_Ok in H as (Hcheck & Hn & _ & _ & st1 & Hpop & _ & ->).
  apply check_connection_Ok in Hcheck as (_ & Hfits & _).
  pose proof (populate_Ok_declared _ _ _ _ _ _ Hn Hpop) as Hdecl.
  rewrite populate_plain in Hpop.
  - by injection Hpop as <- <-.
  - done.
  - apply Forall_and. by split.
Qed.

End Slots.

(** ** Which slots are cable slots *)

Section CableSlots.

Variable expand : YamlValue → result (list YamlScalar).
Variable y : YamlData.
Variable cbls : list (string * Attribs).

(** The harness knows the declared cables. *)
Hypothesis cables_registered : ∀ x, registered x cbls = is_in y Cables x.
(** No designator is both a connector and a cable. *)
Hypothesis sections_disjoint : ∀ x, is_Some (connectors y !! x) → cables y !! x = None.
(** No cable bears a generated name. *)
Hypothesis no_generated_cable : ∀ t k, cables y !! new_id t k = None.

Lemma not_cable x : cables y !! x = None → registered x cbls = false.
Proof. intros H. rewrite cables_registered. by apply is_in_false. Qed.

Lemma single_pins_not_cable_slot x l st st' sublist :
  single_pins y (x :: l) st = (st', Ok sublist) →
  cable_slot cbls sublist = false.
Proof.
  intros H. pose proof (single_pins_Ok_declared _ _ _ _ _ H) as Hdecl.
  apply Forall_cons in Hdecl as [Hx _].
  apply single_pins_head in H as (id & rest & -> & Hid). cbn.
  destruct Hid as [->|[k ->]]; apply not_cable; auto.
Qed.

Lemma accepted_single_pins_connectors s x l st st' sublist :
  is_Some (section y s !! x) →
  single_pins y (x :: l) st = (st', Ok sublist) →
  s = Connectors.
Proof.
  intros Hs H. apply single_pins_Ok_declared in H.
  apply Forall_cons in H as [Hx _].
  destruct s; [done|]. cbn in Hs. apply sections_disjoint in Hx.
  rewrite Hx in Hs. by destruct Hs.
Qed.

Lemma populate_item_cable_slot s n item st st' sublist :
  0 < n →
  item_accepted expand y s n item →
  populate_item expand y n item st = (st', Ok sublist) →
  cable_slot cbls sublist = expects_cable s.
Proof.
  intros Hn Hacc H. destruct item as [x|l|d]; cbn in Hacc, H.
  - destruct n as [|m]; [lia|]. cbn in H.
    rewrite (accepted_single_pins_connectors _ _ _ _ _ _ Hacc H).
    by erewrite single_pins_not_cable_slot.
  - destruct Hacc as [Hl Hlen]. destruct l as [|x l]; [cbn in Hlen; lia|].
    apply Forall_cons in Hl as [Hx _].
    rewrite (accepted_single_pins_connectors _ _ _ _ _ _ Hx H).
    by erewrite single_pins_not_cable_slot.
  - destruct d as [|[k spec] [|? ?]]; try done.
    destruct Hacc as (Hk & pins & Hpins & Hlen). rewrite Hpins in H.
    injection H as _ <-. destruct pins as [|p pins]; [cbn in Hlen; lia|].
    cbn. rewrite cables_registered. destruct s; cbn in Hk.
    + apply sections_disjoint in Hk. by apply is_in_false.
    + by apply is_in_true.
Qed.

Lemma populate_cable_slots s n connection st st' cl :
  0 < n →
  accepted expand y s n connection →
  populate expand y n connection st = (st', Ok cl) →
  ∀ i item, cl !! i = Some item →
            cable_slot cbls item = expects_cable (section_at s i).
Proof.
  intros Hn. revert s st st' cl.
  induction connection as [|item0 rest IH]; intros s st st' cl Hacc.
  { intros [= <- <-] i item. by rewrite lookup_nil. }
  destruct Hacc as [Hitem Hrest]. cbn [populate]. unfold mbind, M_bind.
  destruct (populate_item expand y n item0 st) as [st1 [sublist|e]] eqn:H1; [|done].
  destruct (populate expand y n rest st1) as [st2 [cl'|e]] eqn:H2; [|done].
  intros [= <- <-] [|i] item.
  - cbn. intros [= <-]. by eapply populate_item_cable_slot.
  - rewrite section_at_S. cbn. intros Hi. by eapply IH.
Qed.

(** X10.  When the harness knows exactly the declared cables, no
    designator is declared both as a connector and as a cable, and no
    cable bears a generated name, the cable slots of a set processed to
    the end are the slots at the positions where a cable is expected:
    links are emitted from every other slot, starting with the first one
    exactly when the set starts on a cable. *)
Theorem cable_slots_alternate connection st st' n cl s :
  h_cables (harness st) = cbls →
  parse_connection expand y connection st = (st', Ok (n, cl)) →
  start_role y connection = Ok s →
  ∀ i item, cl !! i = Some item →
            cable_slot (h_cables (harness st)) item =
              expects_cable (section_at s i).
Proof.
  intros Hcbls H Hs.
  apply parse_connection_Ok in H as (Hcheck & Hn & _ & _ & st1 & Hpop & _ & _).
  apply check_connection_accepted in Hcheck as (s' & Hs' & Hacc & _).
  rewrite Hs in Hs'. injection Hs' as <-. rewrite Hcbls.
  by eapply populate_cable_slots.
Qed.

End CableSlots.

(** ** The section loop *)






Section Loaded.

Variable expand : YamlValue → result (list YamlScalar).


End Loaded.

Lemma add_declared_connectors y h0 x :
  add_declared y = Ok h0 →
  registered x (h_connectors h0) = true ↔
  ∃ a, connectors y !! x = Some a ∧ autogenerate a = false.
Proof.
  destruct (add_declared_Ok y) as (h & -> & Hc & _). intros [= <-].
  unfold registered. rewrite bool_decide_eq_true, Hc.
  rewrite list_elem_of_fmap. split.
  - intros [[k a] [-> Hin]]. apply list_elem_of_In, List.filter_In in Hin.
    destruct Hin as [Hin Hkeep]. apply list_elem_of_In, elem_of_map_to_list in Hin.
    exists a. split; [done|]. cbn in Hkeep. by destruct (autogenerate a).
  - intros (a & Ha & Hauto). exists (x, a). split; [done|].
    apply list_elem_of_In, List.filter_In. split.
    + by apply list_elem_of_In, elem_of_map_to_list.
    + cbn. by rewrite Hauto.
Qed.

Lemma add_declared_knows y h0 : add_declared y = Ok h0 → knows_declared y h0.
Proof.
  intros H. split.
  - intros x a Ha Hauto. apply (add_declared_connectors y h0 x H). eauto.
  - intros x Hx. rewrite (add_declared_cables y h0 x H). by apply is_in_true.
Qed.


(** X13.  The name generated for an instance tells its template and its
    number: two generated names are equal only if both are. *)
Theorem generated_names_are_unambiguous t n t' n' :
  new_id t n = new_id t' n' ↔ t = t' ∧ n = n'.
Proof.
  split; [apply new_id_inj|]. by intros [-> ->].
Qed.

(** ** The helper [check_designators] *)

Lemma designators_found_cons y x what s where_ :
  designators_found y (x :: what) (s :: where_) ↔
  is_Some (section y s !! x) ∧ designators_found y what where_.
Proof.
  unfold designators_found. split.
  - intros H. split; [by apply (H 0)|].
    intros i x' s' Hx Hs. by apply (H (S i)).
  - intros [H0 H] [|i] x' s'; cbn.
    + by intros [= <-] [= <-].
    + apply H.
Qed.

(** X14.  [check_designators] answers [True] exactly when [where] is at
    least as long as [what] and every designator is in the section given
    for it; it raises, with an index error, exactly when [where] is
    shorter than [what] and every designator that has a section is in it.
    In all other cases it answers [False]: a designator missing from its
    section ends the loop before [where] is found too short. *)
Theorem check_designators_outcome y what where_ :
  (check_designators y what where_ = Ok true ↔
     length what ≤ length where_ ∧ designators_found y what where_) ∧
  (check_designators y what where_ = Raise IndexError ↔
     length where_ < length what ∧ designators_found y what where_) ∧
  (∀ e, check_designators y what where_ = Raise e → e = IndexError).
Proof.
  revert where_. induction what as [|x what IH]; intros where_.
  { cbn. split; [|split].
    - split; [|done]. intros _. split; [lia|].
      intros i x s. by rewrite lookup_nil.
    - split; [done|]. intros [H _]. lia.
    - done. }
  destruct where_ as [|s where_]; cbn [check_designators length].
  { split; [|split].
    - split; [done|]. intros [H _]. lia.
    - split; [|done]. intros _. split; [lia|].
      intros i x' s' _. by rewrite lookup_nil.
    - by intros e [= <-]. }
  rewrite designators_found_cons.
  destruct (is_in y s x) eqn:Hin; cbn.
  - apply is_in_true in Hin. destruct (IH where_) as (IH1 & IH2 & IH3).
    split; [|split; [|done]].
    + rewrite IH1. split.
      * intros [Hl Hf]. split; [lia|]. by split.
      * intros [Hl [_ Hf]]. split; [lia|done].
    + rewrite IH2. split.
      * intros [Hl Hf]. split; [lia|]. by split.
      * intros [Hl [_ Hf]]. split; [lia|done].
  - apply is_in_false in Hin. split; [|split].
    + split; [done|]. intros [_ [[a Ha] _]]. congruence.
    + split; [done|]. intros [_ [[a Ha] _]]. congruence.
    + done.
Qed.

(** ** The value returned *)

Section Returned.

Variable lower : string → string.

Lemma outputs_of_length rt :
  length (outputs_of rt) =
  if bool_decide (rt = "png" ∨ rt = "svg" ∨ rt = "harness") then 1 else 0.
Proof.
  unfold outputs_of.
  destruct (decide (rt = "png")) as [->|H1]; [done|].
  destruct (decide (rt = "svg")) as [->|H2]; [done|].
  destruct (decide (rt = "harness")) as [->|H3]; [done|].
  rewrite bool_decide_eq_false_2; [done|]. intros [?|[?|?]]; done.
Qed.

Lemma collect_length l :
  length (collect (lower <$> l)) = length (List.filter (known lower) l).
Proof.
  induction l as [|rt l IH]; [done|].
  cbn. rewrite length_app, outputs_of_length, IH. unfold known.
  by destruct (bool_decide _).
Qed.

Lemma pack_length returns :
  match pack returns with
  | ReturnedNone => False
  | ReturnedOne _ => length returns = 1
  | ReturnedTuple l => l = returns ∧ length returns ≠ 1
  end.
Proof. by destruct returns as [|o [|? ?]]. Qed.

(** X15.  [parse] returns [None] exactly when [return_types] is [None].
    Otherwise the names asked for are lowered, those that are none of
    [png], [svg] and [harness] are passed over in silence, and each of the
    others yields one output: the value is one output, not a tuple,
    exactly when one name is known, and in every other case a tuple of as
    many outputs as there are known names, the empty tuple included. *)
Theorem returned_counts_known_names return_types :
  (returned lower return_types = ReturnedNone ↔ return_types = RtNone) ∧
  ((∃ o, returned lower return_types = ReturnedOne o) ↔
     length (List.filter (known lower) (requested return_types)) = 1) ∧
  ((∃ l, returned lower return_types = ReturnedTuple l) ↔
     return_types ≠ RtNone ∧
     length (List.filter (known lower) (requested return_types)) ≠ 1) ∧
  (∀ l, returned lower return_types = ReturnedTuple l →
        length l = length (List.filter (known lower) (requested return_types))).
Proof.
  assert (∀ names,
    match pack (collect (lower <$> names)) with
    | ReturnedNone => False
    | ReturnedOne _ => length (List.filter (known lower) names) = 1
    | ReturnedTuple l =>
        length l = length (List.filter (known lower) names) ∧
        length (List.filter (known lower) names) ≠ 1
    end) as Hpack.
  { intros names. pose proof (pack_length (collect (lower <$> names))) as H.
    rewrite <- collect_length.
    destruct (pack _); [done|done|]. by destruct H as [-> ?]. }
  destruct return_types as [|s|l]; cbn [returned requested].
  - cbn. split; [done|]. split; [|split].
    + split; [by intros [o ?]|done].
    + split; [|by intros [? _]]. intros [l H]. done.
    + done.
  - specialize (Hpack [s]). destruct (pack _) as [|o|l']; [done| |].
    + split; [done|]. split; [|split].
      * split; [done|]. intros _. by exists o.
      * split; [by intros [? ?]|]. intros [_ ?]. done.
      * done.
    + destruct Hpack as [Hlen Hne]. split; [done|]. split; [|split].
      * split; [by intros [? ?]|done].
      * split; [done|]. intros _. by exists l'.
      * by intros ? [= <-].
  - specialize (Hpack l). destruct (pack _) as [|o|l']; [done| |].
    + split; [done|]. split; [|split].
      * split; [done|]. intros _. by exists o.
      * split; [by intros [? ?]|]. intros [_ ?]. done.
      * done.
    + destruct Hpack as [Hlen Hne]. split; [done|]. split; [|split].
      * split; [by intros [? ?]|done].
      * split; [done|]. intros _. by exists l'.
      * by intros ? [= <-].
Qed.

End Returned.

(** ** Sets that are processed to the end *)

Lemma registered_app name reg more :
  registered name reg = true → registered name (reg ++ more) = true.
Proof.
  unfold registered. rewrite !bool_decide_eq_true, fmap_app, elem_of_app. auto.
Qed.

Lemma registered_last name a reg : registered name (reg ++ [(name, a)]) = true.
Proof.
  unfold registered. rewrite bool_decide_eq_true, fmap_app, elem_of_app.
  right. cbn. apply list_elem_of_singleton. done.
Qed.

Lemma known_end_extends st st' p :
  extends st st' → known_end (harness st) p → known_end (harness st') p.
Proof.
  intros ([more Hc] & Hb & _ & _) [H|H]; [left|right].
  - rewrite Hc. by apply registered_app.
  - by rewrite Hb.
Qed.

Lemma knows_declared_extends y st st' :
  extends st st' → knows_declared y (harness st) → knows_declared y (harness st').
Proof.
  intros ([more Hc] & Hb & _ & _) [H1 H2]. split.
  - intros x a Ha Hauto. rewrite Hc. apply registered_app. eauto.
  - intros x Hx. rewrite Hb. eauto.
Qed.

Lemma single_pin_entry_known y x st st' p :
  knows_declared y (harness st) →
  single_pin y x st = (st', Ok p) →
  known_end (harness st') p.
Proof.
  intros [H1 _]. unfold single_pin, add_connector.
  destruct (connectors y !! x) as [a|] eqn:Ha; [|done].
  destruct (autogenerate a) eqn:Hauto.
  - destruct (registered _ _); [done|]. intros [= <- <-]. left. cbn.
    apply registered_last.
  - intros [= <- <-]. left. cbn. eauto.
Qed.

Lemma single_pins_entries_known y l st st' sublist :
  knows_declared y (harness st) →
  single_pins y l st = (st', Ok sublist) →
  Forall (known_end (harness st')) sublist.
Proof.
  revert st st' sublist. induction l as [|x l IH]; intros st st' sublist Hknows.
  { intros [= <- <-]. constructor. }
  cbn [single_pins]. unfold mbind, M_bind.
  pose proof (single_pin_extends y x st) as Hext1.
  destruct (single_pin y x st) as [st1 [p|e]] eqn:Hp; [|done]. cbn in Hext1.
  pose proof (single_pins_extends y l st1) as Hext2.
  destruct (single_pins y l st1) as [st2 [ps|e]] eqn:Hps; [|done]. cbn in Hext2.
  intros [= <- <-]. constructor.
  - eapply known_end_extends; [exact Hext2|]. by eapply single_pin_entry_known.
  - eapply IH; [|exact Hps]. by eapply knows_declared_extends.
Qed.

Section Completed.

Variable expand : YamlValue → result (list YamlScalar).

Lemma populate_item_entries_known y s n item st st' sublist :
  knows_declared y (harness st) →
  item_accepted expand y s n item →
  (∀ d, item = IDict d → Forall (λ k, is_template y k = false) d.*1) →
  populate_item expand y n item st = (st', Ok sublist) →
  Forall (known_end (harness st')) sublist.
Proof.
  intros Hknows Hacc Hkeys H. destruct item as [x|l|d]; cbn in Hacc, H.
  - by eapply single_pins_entries_known.
  - by eapply single_pins_entries_known.
  - destruct d as [|[k spec] [|? ?]]; try done.
    destruct Hacc as (Hk & pins & Hpins & _). rewrite Hpins in H.
    injection H as <- <-. apply Forall_fmap, Forall_forall. intros pin _.
    specialize (Hkeys _ eq_refl). cbn in Hkeys.
    apply Forall_cons in Hkeys as [Hplain _]. unfold known_end. cbn.
    destruct Hknows as [H1 H2]. destruct s; cbn in Hk.
    + left. destruct Hk as [a Ha]. apply (H1 k a Ha).
      unfold is_template in Hplain. by rewrite Ha in Hplain.
    + right. by apply H2.
Qed.

Lemma populate_entries_known y s n connection st st' cl :
  knows_declared y (harness st) →
  accepted expand y s n connection →
  Forall (λ k, is_template y k = false) (dict_keys connection) →
  populate expand y n connection st = (st', Ok cl) →
  Forall (Forall (known_end (harness st'))) cl.
Proof.
  revert s st st' cl.
  induction connection as [|item rest IH]; intros s st st' cl Hknows Hacc Hkeys.
  { intros [= <- <-]. constructor. }
  destruct Hacc as [Hitem Hrest]. unfold dict_keys in Hkeys. cbn in Hkeys.
  apply Forall_app in Hkeys as [Hkeys0 Hkeys].
  cbn [populate]. unfold mbind, M_bind.
  pose proof (populate_item_extends expand y n item st) as Hext1.
  destruct (populate_item expand y n item st) as [st1 [sublist|e]] eqn:H1; [|done].
  cbn in Hext1.
  pose proof (populate_extends expand y n rest st1) as Hext2.
  destruct (populate expand y n rest st1) as [st2 [cl'|e]] eqn:H2; [|done].
  cbn in Hext2. intros [= <- <-]. constructor.
  - eapply Forall_impl; [|intros p; apply (known_end_extends _ _ p Hext2)].
    eapply populate_item_entries_known; eauto. by intros d ->.
  - eapply IH; [| | |exact H2]; eauto. by eapply knows_declared_extends.
Qed.

(** X16.  Given a harness that has the declared connectors other than
    templates and the declared cables, and a set in which no dict is keyed
    by a template: when the set is processed to the end, every entry of
    every slot, and so every end of every link emitted for it, names a
    component that the harness has, the generated instances having been
    registered before they are used. *)
Theorem slot_entries_are_registered y connection st st' n cl :
  knows_declared y (harness st) →
  Forall (λ k, is_template y k = false) (dict_keys connection) →
  parse_connection expand y connection st = (st', Ok (n, cl)) →
  Forall (Forall (known_end (harness st'))) cl.
Proof.
  intros Hknows Hkeys H.
  apply parse_connection_Ok in H as (Hcheck & _ & _ & _ & st1 & Hpop & _ & ->).
  apply check_connection_accepted in Hcheck as (s & _ & Hacc & _).
  pose proof (populate_entries_known _ _ _ _ _ _ _ Hknows Hacc Hkeys Hpop) as Hall.
  eapply Forall_impl; [exact Hall|]. intros slot Hslot.
  eapply Forall_impl; [exact Hslot|]. by intros p [?|?]; [left|right].
Qed.

(** X17.  A set that passes the check with a positive count, and whose
    strings and list elements all name declared connectors that are no
    templates, is processed to the end: nothing but links is added to the
    state, the slots are read off the items as [plain_slot] says, and the
    links are those of these slots. *)
Theorem plain_set_succeeds y connection n st :
  check_connection expand y connection = Ok n →
  0 < n →
  Forall (λ x, is_Some (connectors y !! x) ∧ is_template y x = false)
    (single_pin_names connection) →
  parse_connection expand y connection st =
    (with_harness st
       (with_links (harness st)
          (set_links (h_cables (harness st)) (plain_slot expand n <$> connection))),
     Ok (n, plain_slot expand n <$> connection)).
Proof.
  intros Hcheck Hn Hnames. unfold parse_connection. rewrite Hcheck.
  apply check_connection_Ok in Hcheck as (_ & Hfits & _).
  pose proof (populate_plain expand y n connection st Hfits Hnames) as Hpop.
  pose proof (populate_Ok _ _ _ _ _ _ _ Hfits Hpop) as (_ & Hrect & _).
  unfold mbind, M_bind. rewrite Hpop.
  by rewrite (connect_all_rectangular n).
Qed.


End Completed.

(** ** The further properties on concrete documents *)

Lemma failed_set_emits_nothing_witness :
  ∃ st', parse_connection expand_ranges doc_FXW [IList ["F"; "F"]; IStr "W"] st_FXW =
           (st', Raise (KeyError "W")) ∧
         (h_connectors (harness st')).*1 = ["X"; "_F_1"; "_F_2"] ∧
         h_links (harness st') = [].
Proof.
  eexists. split; [vm_compute; reflexivity|]. split; [reflexivity|].
  refine (proj1 (failed_set_emits_nothing expand_ranges doc_FXW
                   [IList ["F"; "F"]; IStr "W"] st_FXW _ (KeyError "W") _)).
  vm_compute. reflexivity.
Defined.

Lemma dict_needs_one_key_witness :
  parse_connection expand_ranges (doc_XYW [])
    ([IList ["X"; "X"]] ++ IDict [("W", pins12); ("Q", pins12)] :: []) st_XYW =
    (st_XYW, Raise MultiKeyMapping).
Proof.
  apply (dict_needs_one_key expand_ranges (doc_XYW []) [IList ["X"; "X"]]
           [("W", pins12); ("Q", pins12)] [] Connectors st_XYW).
  - vm_compute. reflexivity.
  - vm_compute. exact I.
  - cbn. lia.
Defined.

Lemma expand_exception_comes_first_witness :
  expand_ranges (YScalar (YStr "a-2")) = Raise MalformedPinSpec ∧
  parse_connection expand_ranges (doc_XYW [])
    ([IList ["X"; "X"]] ++ IDict [("Q", YScalar (YStr "a-2"))] :: []) st_XYW =
    (st_XYW, Raise MalformedPinSpec).
Proof.
  split; [reflexivity|].
  apply (expand_exception_comes_first expand_ranges (doc_XYW []) [IList ["X"; "X"]]
           "Q" (YScalar (YStr "a-2")) [] Connectors MalformedPinSpec st_XYW).
  - vm_compute. reflexivity.
  - vm_compute. exact I.
  - reflexivity.
Defined.

Lemma zero_count_raises_IndexError_witness :
  check_connection expand_ranges (doc_XYW []) [IStr "X"; IList []] = Ok 0 ∧
  parse_connection expand_ranges (doc_XYW []) [IStr "X"; IList []] st_XYW =
    (st_XYW, Raise IndexError).
Proof.
  assert (check_connection expand_ranges (doc_XYW []) [IStr "X"; IList []] = Ok 0)
    as H by (vm_compute; reflexivity).
  split; [exact H|].
  exact (zero_count_raises_IndexError expand_ranges (doc_XYW []) _ st_XYW H).
Defined.

Lemma single_pin_items_are_connectors_witness :
  Forall (λ x, is_Some (connectors (doc_XYW []) !! x)) (single_pin_names row_XWY_wires).
Proof.
  refine (single_pin_items_are_connectors expand_ranges (doc_XYW []) row_XWY_wires
            st_XYW _ 2 slots_XWY _).
  vm_compute. reflexivity.
Defined.

Lemma plain_set_slots_witness :
  slots_XWY = plain_slot expand_ranges 2 <$> row_XWY_wires.
Proof.
  refine (proj1 (plain_set_slots expand_ranges (doc_XYW []) row_XWY_wires
                   st_XYW _ 2 slots_XWY _ _)).
  - vm_compute. reflexivity.
  - vm_compute. repeat constructor.
Defined.

Lemma cable_slots_alternate_witness :
  cable_slot (h_cables (harness st_FXW)) [("_F_1", YInt 1); ("_F_2", YInt 1)] = false ∧
  cable_slot (h_cables (harness st_FXW)) [("W", YInt 1); ("W", YInt 2)] = true.
Proof.
  assert (∀ x, registered x (h_cables (harness st_FXW)) = is_in doc_FXW Cables x) as H1.
  { intros x. apply (add_declared_cables doc_FXW (harness st_FXW) x).
    vm_compute. reflexivity. }
  assert (∀ x, is_Some (connectors doc_FXW !! x) → cables doc_FXW !! x = None) as H2.
  { intros x Hx. destruct (decide (x = "W")) as [->|Hne].
    - vm_compute in Hx. destruct Hx as [a Ha]. discriminate Ha.
    - apply lookup_singleton_ne. congruence. }
  assert (∀ t k, cables doc_FXW !! new_id t k = None) as H3.
  { intros t k. apply lookup_singleton_ne. unfold new_id.
    rewrite append_cons. discriminate. }
  assert (parse_connection expand_ranges doc_FXW row_FWX st_FXW =
            (st_FWX, Ok (2, slots_FWX))) as Hparse by (vm_compute; reflexivity).
  assert (start_role doc_FXW row_FWX = Ok Connectors) as Hs
    by (vm_compute; reflexivity).
  pose proof (cable_slots_alternate expand_ranges doc_FXW (h_cables (harness st_FXW))
                H1 H2 H3 row_FWX st_FXW st_FWX 2 slots_FWX Connectors
                eq_refl Hparse Hs) as H.
  split.
  - exact (H 0 _ eq_refl).
  - exact (H 1 _ eq_refl).
Defined.

Lemma slot_entries_are_registered_witness :
  Forall (Forall (known_end (harness st_FWX))) slots_FWX.
Proof.
  refine (slot_entries_are_registered expand_ranges doc_FXW row_FWX st_FXW st_FWX 2
            slots_FWX _ _ _).
  - apply add_declared_knows. vm_compute. reflexivity.
  - vm_compute. repeat constructor.
  - vm_compute. reflexivity.
Defined.

Lemma plain_set_succeeds_witness :
  check_connection expand_ranges (doc_XYW []) row_XWY_wires = Ok 2 ∧
  parse_connection expand_ranges (doc_XYW []) row_XWY_wires st_XYW =
    (with_harness st_XYW
       (with_links (harness st_XYW)
          (set_links (h_cables (harness st_XYW))
             (plain_slot expand_ranges 2 <$> row_XWY_wires))),
     Ok (2, plain_slot expand_ranges 2 <$> row_XWY_wires)).
Proof.
  assert (check_connection expand_ranges (doc_XYW []) row_XWY_wires = Ok 2) as H
    by (vm_compute; reflexivity).
  split; [exact H|].
  refine (plain_set_succeeds expand_ranges (doc_XYW []) row_XWY_wires 2 st_XYW H _ _).
  - lia.
  - vm_compute. repeat constructor; eexists; reflexivity.
Defined.


Lemma check_accepts_exactly_witness :
  check_connection expand_ranges (doc_XYW []) row_XWY_wires = Ok 2.
Proof.
  apply (proj2 (check_accepts_exactly expand_ranges (doc_XYW []) row_XWY_wires 2)).
  exists Connectors. split; [vm_compute; reflexivity|]. split; [|reflexivity].
  unfold row_XWY_wires. cbn [accepted item_accepted flip].
  split; [|split; [|split; [|exact I]]].
  - split; [|reflexivity]. repeat constructor; by_evaluation.
  - split; [by_evaluation|]. exists [YInt 1; YInt 2]. split; reflexivity.
  - split; [by_evaluation|]. exists [YInt 1; YInt 2]. split; reflexivity.
Defined.

Lemma generated_names_are_unambiguous_witness : new_id "F" 1 ≠ new_id "F1" 1.
Proof.
  intros H.
  destruct (proj1 (generated_names_are_unambiguous "F" 1 "F1" 1) H) as [Ht _].
  discriminate Ht.
Defined.
